(** * AtlasBot: the word-chain game of [script.js]

    A shallow embedding of the browser game: the player and a random bot
    alternately name words of a fixed word list, each word starting with
    the last letter of the previous one, no word twice.

    JavaScript strings are sequences of UTF-16 code units; they are
    modelled as lists of integers.  Numbers are IEEE 754 binary64 values,
    modelled with the Standard Library's [spec_float]. *)

From Stdlib Require Import String Ascii List ZArith Lia Bool SpecFloat.
Import ListNotations.

Local Open Scope Z_scope.

(** ** Strings *)

Definition codeunit := Z.
Definition jsstring := list codeunit.

(** An ASCII literal as a JavaScript string. *)
Definition lit (s : string) : jsstring :=
  map (fun a => Z.of_N (N_of_ascii a)) (list_ascii_of_string s).

Fixpoint str_eqb (a b : jsstring) : bool :=
  match a, b with
  | [], [] => true
  | x :: a', y :: b' => (x =? y) && str_eqb a' b'
  | _, _ => false
  end.

(** [String.prototype.toLowerCase], one code unit at a time.  The units
    whose lower-case mapping contains a unit of [a]-[z] are the ASCII
    capitals, U+0130 (capital I with dot above, mapped to [i] followed by
    U+0307) and U+212A (the Kelvin sign, mapped to [k]).  Every other
    mapping of the Unicode tables stays outside ASCII; of those only the
    Latin-1 capitals are written out, the remaining units are kept as they
    are. *)
Definition lowerUnit (c : codeunit) : list codeunit :=
  if (65 <=? c) && (c <=? 90) then [c + 32]
  else if c =? 0x130 then [0x69; 0x307]
  else if c =? 0x212A then [0x6B]
  else if (0xC0 <=? c) && (c <=? 0xDE) && negb (c =? 0xD7) then [c + 32]
  else [c].

Definition toLowerCase (s : jsstring) : jsstring := flat_map lowerUnit s.

(** The character class [a-z]. *)
Definition is_a_z (c : codeunit) : bool := (97 <=? c) && (c <=? 122).

(** [s.replace(/[^a-z]/g, "")]: scan left to right, delete every match. *)
Fixpoint replace_non_a_z (s : jsstring) : jsstring :=
  match s with
  | [] => []
  | c :: t => if is_a_z c then c :: replace_non_a_z t else replace_non_a_z t
  end.

(** [normalizeInput(word)] *)
Definition normalizeInput (word : jsstring) : jsstring :=
  replace_non_a_z (toLowerCase word).

(** White space and line terminators, the units [trim] strips. *)
Definition isWhiteSpace (c : codeunit) : bool :=
  existsb (Z.eqb c)
    [0x9; 0xA; 0xB; 0xC; 0xD; 0x20; 0xA0; 0x1680; 0x2028; 0x2029;
     0x202F; 0x205F; 0x3000; 0xFEFF]
  || ((0x2000 <=? c) && (c <=? 0x200A)).

Fixpoint trimStart (s : jsstring) : jsstring :=
  match s with
  | [] => []
  | c :: t => if isWhiteSpace c then trimStart t else s
  end.

Definition trimEnd (s : jsstring) : jsstring := rev (trimStart (rev s)).

Definition trim (s : jsstring) : jsstring := trimEnd (trimStart s).

(** ** Values *)

(** The values the game variables take: [lastLetter] is [null] or a
    string, [w[0]] and [prettyMap[w]] are [undefined] or a string. *)
Inductive jsval :=
| JUndefined
| JNull
| JStr (s : jsstring).

(** [a === b] *)
Definition strictEq (a b : jsval) : bool :=
  match a, b with
  | JUndefined, JUndefined => true
  | JNull, JNull => true
  | JStr x, JStr y => str_eqb x y
  | _, _ => false
  end.

(** ToBoolean *)
Definition truthy (v : jsval) : bool :=
  match v with
  | JStr (_ :: _) => true
  | _ => false
  end.

(** [w[0]] *)
Definition index0 (w : jsstring) : jsval :=
  match w with
  | [] => JUndefined
  | c :: _ => JStr [c]
  end.

(** [w.slice(-1)] *)
Definition slice_last (w : jsstring) : jsstring :=
  match rev w with
  | [] => []
  | c :: _ => [c]
  end.

(** [arr.includes(w)] on an array of strings *)
Definition includes (arr : list jsstring) (w : jsstring) : bool :=
  existsb (str_eqb w) arr.

(** A value inside a template literal. *)
Definition template (v : jsval) : jsstring :=
  match v with
  | JUndefined => lit "undefined"
  | JNull => lit "null"
  | JStr s => s
  end.

(** [arr.join(sep)]: [undefined] and [null] elements print as nothing. *)
Fixpoint join (sep : jsstring) (arr : list jsval) : jsstring :=
  match arr with
  | [] => []
  | [v] => match v with JStr s => s | _ => [] end
  | v :: rest => match v with JStr s => s | _ => [] end ++ sep ++ join sep rest
  end.

(** ** Numbers *)

Definition prec : Z := 53.
Definition emax : Z := 1024.

(** The Number value of an array length. *)
Definition number_of_length (n : nat) : spec_float :=
  binary_normalize prec emax (Z.of_nat n) 0 false.

(** [Math.floor(x)] as an integer; [None] for NaN and the infinities, which
    have no integer part. *)
Definition Math_floor (x : spec_float) : option Z :=
  match x with
  | S754_zero _ => Some 0
  | S754_finite s m e => Some (Z.shiftl (cond_Zopp s (Zpos m)) e)
  | S754_infinity _ | S754_nan => None
  end.

(** [arr[i]] for a floored Number [i]: [None] is [undefined]. *)
Definition array_get {A : Type} (arr : list A) (i : option Z) : option A :=
  match i with
  | Some k => if 0 <=? k then nth_error arr (Z.to_nat k) else None
  | None => None
  end.

(** The values [Math.random()] may return: a binary64 number of positive
    sign, at least [+0] and below [1]. *)
Definition unit_interval (r : spec_float) : bool :=
  valid_binary prec emax r &&
  match r with
  | S754_zero s => negb s
  | S754_finite s _ _ => negb s && SFltb r (SFone prec emax)
  | _ => false
  end.

(** ** The page and the game variables *)

(** The globals [used] and [lastLetter], the pending [setTimeout]
    callbacks, and the four elements of the page the script reads and
    writes.  [wordlist] and [prettyMap] are filled once by the [fetch]
    callback and only read afterwards: they are parameters below (before
    the callback has run, [wordlist] is empty). *)
Record World := mkWorld {
  used : list jsstring;
  lastLetter : jsval;
  timers : nat;
  el_userWord : jsstring;
  el_result : jsstring;
  el_lastLetter : jsstring;
  el_usedWords : jsstring
}.

(** The state of a freshly loaded page. *)
Definition initial : World :=
  mkWorld [] JNull 0 [] [] [] [].

Definition set_used (u : list jsstring) (w : World) : World :=
  mkWorld u (lastLetter w) (timers w)
          (el_userWord w) (el_result w) (el_lastLetter w) (el_usedWords w).

Definition set_lastLetter (l : jsval) (w : World) : World :=
  mkWorld (used w) l (timers w)
          (el_userWord w) (el_result w) (el_lastLetter w) (el_usedWords w).

Definition set_timers (n : nat) (w : World) : World :=
  mkWorld (used w) (lastLetter w) n
          (el_userWord w) (el_result w) (el_lastLetter w) (el_usedWords w).

Definition set_userWord (v : jsstring) (w : World) : World :=
  mkWorld (used w) (lastLetter w) (timers w)
          v (el_result w) (el_lastLetter w) (el_usedWords w).

(** [setResult(msg)] *)
Definition setResult (msg : jsstring) (w : World) : World :=
  mkWorld (used w) (lastLetter w) (timers w)
          (el_userWord w) msg (el_lastLetter w) (el_usedWords w).

(** The entries of [wordlist.json] and what the [fetch] callback builds
    from them. *)
Record item := mkItem { pretty : jsstring; norm : jsstring }.

Definition load_wordlist (data : list item) : list jsstring := map norm data.

(** [prettyMap[w]] after loading: the last entry with that [norm] wins. *)
Definition load_prettyMap (data : list item) (w : jsstring) : jsval :=
  match find (fun it => str_eqb (norm it) w) (rev data) with
  | Some it => JStr (pretty it)
  | None => JUndefined
  end.

(** The texts of the result line. *)
Definition msg_enter : jsstring :=
  [0x26A0; 0xFE0F] ++ lit " Please enter a country.".
Definition msg_invalid : jsstring := [0x274C] ++ lit " Invalid country!".
Definition msg_used : jsstring := [0x274C] ++ lit " Already used!".
Definition msg_must (l : jsval) : jsstring :=
  [0x274C] ++ lit " Must start with '" ++ template l ++ lit "'.".
Definition msg_played (p : jsval) : jsstring :=
  [0x2705] ++ lit " You played: " ++ template p.
Definition msg_win : jsstring :=
  [0xD83C; 0xDF89] ++ lit " You win! Bot stuck.".
Definition msg_bot (p : jsval) : jsstring :=
  [0xD83E; 0xDD16] ++ lit " Bot played: " ++ template p.

(** How a call ends: normally, or with the [TypeError] of
    [botWord.slice(-1)] on an [undefined] word (which [used.push] has
    stored by then). *)
Inductive completion (A : Type) :=
| Normal (a : A)
| TypeError.
Arguments Normal {A} a.
Arguments TypeError {A}.

(** What happens to the page: the player types [raw] and presses the
    button, or a pending timer runs [botMove], with [r] the value
    [Math.random()] returns in it. *)
Inductive event :=
| Submit (raw : jsstring)
| BotTimer (r : spec_float).

Section Game.

Variable wordlist : list jsstring.
Variable prettyMap : jsstring -> jsval.

(** [updateUI()] *)
Definition updateUI (w : World) : World :=
  let shownLetter :=
    if truthy (lastLetter w) then template (lastLetter w) else lit "-" in
  let joined := join (lit ", ") (map prettyMap (used w)) in
  let shownWords :=
    if truthy (JStr joined) then joined else lit "None" in
  mkWorld (used w) (lastLetter w) (timers w)
          [] (el_result w) shownLetter shownWords.

(** [playWord()] *)
Definition playWord (w : World) : World :=
  let input := trim (el_userWord w) in
  let normWord := normalizeInput input in
  if negb (truthy (JStr normWord)) then
    setResult msg_enter w
  else if negb (includes wordlist normWord) then
    setResult msg_invalid w
  else if includes (used w) normWord then
    setResult msg_used w
  else if truthy (lastLetter w)
          && negb (strictEq (index0 normWord) (lastLetter w)) then
    setResult (msg_must (lastLetter w)) w
  else
    let w1 := set_used (used w ++ [normWord]) w in
    let w2 := set_lastLetter (JStr (slice_last normWord)) w1 in
    let w3 := updateUI w2 in
    let w4 := setResult (msg_played (prettyMap normWord)) w3 in
    set_timers (S (timers w4)) w4.

(** The filter of [botMove]. *)
Definition candidates (w : World) : list jsstring :=
  filter (fun x => strictEq (index0 x) (lastLetter w)
                   && negb (includes (used w) x))
         wordlist.

(** [botMove()], with [r] the value of [Math.random()]. *)
Definition botMove (r : spec_float) (w : World) : completion World :=
  let cs := candidates w in
  if (length cs =? 0)%nat then
    Normal (setResult msg_win w)
  else
    let idx :=
      Math_floor (SFmul prec emax r (number_of_length (length cs))) in
    match array_get cs idx with
    | None => TypeError
    | Some botWord =>
        let w1 := set_used (used w ++ [botWord]) w in
        let w2 := set_lastLetter (JStr (slice_last botWord)) w1 in
        let w3 := updateUI w2 in
        Normal (setResult (msg_bot (prettyMap botWord)) w3)
    end.

(** One event of the page. *)
Definition step (w : World) (ev : event) : completion World :=
  match ev with
  | Submit raw => Normal (playWord (set_userWord raw w))
  | BotTimer r => botMove r (set_timers (pred (timers w)) w)
  end.

(** A sequence of events, stopping at the first exception. *)
Fixpoint run (w : World) (evs : list event) : completion World :=
  match evs with
  | [] => Normal w
  | ev :: rest =>
      match step w ev with
      | Normal w' => run w' rest
      | TypeError => TypeError
      end
  end.

End Game.

(** ** Vocabulary of the specification *)

(** The random value of an event is one [Math.random()] can return. *)
Definition random_ok (ev : event) : bool :=
  match ev with
  | Submit _ => true
  | BotTimer r => unit_interval r
  end.

(** The turn states of the specification's match engine.  The script
    stores none of them; [spec_next] computes them along a run. *)
Inductive phase :=
| AwaitingFirstMove
| AwaitingPlayerMove
| AwaitingBotMove
| PlayerWon
| GameOver.

(** An event has put a word on [used]. *)
Definition played (w w' : World) : bool :=
  negb (length (used w') =? length (used w))%nat.

(** The transitions of the specification: a player move is valid in
    [AwaitingFirstMove] and [AwaitingPlayerMove] and leads to
    [AwaitingBotMove] when it is accepted; a bot move is valid in
    [AwaitingBotMove] and leads to [AwaitingPlayerMove], or to [PlayerWon]
    when no word is played; anything else leaves the turn state alone. *)
Definition spec_next (ph : phase) (ev : event) (w w' : World) : phase :=
  match ev, ph with
  | Submit _, (AwaitingFirstMove | AwaitingPlayerMove) =>
      if played w w' then AwaitingBotMove else ph
  | BotTimer _, AwaitingBotMove =>
      if played w w' then AwaitingPlayerMove else PlayerWon
  | _, _ => ph
  end.

(** [run], with the turn state of the specification carried along. *)
Fixpoint run_phase (wordlist : list jsstring) (prettyMap : jsstring -> jsval)
    (w : World) (ph : phase) (evs : list event) : completion (World * phase) :=
  match evs with
  | [] => Normal (w, ph)
  | ev :: rest =>
      match step wordlist prettyMap w ev with
      | Normal w' =>
          run_phase wordlist prettyMap w' (spec_next ph ev w w') rest
      | TypeError => TypeError
      end
  end.

(** Every word starts with the last letter of the word before it. *)
Fixpoint linked (u : list jsstring) : Prop :=
  match u with
  | a :: (b :: _) as rest => index0 b = JStr (slice_last a) /\ linked rest
  | _ => True
  end.

(** The required letter a sequence of played words leaves behind. *)
Definition last_letter_of (u : list jsstring) : jsval :=
  match u with
  | [] => JNull
  | _ :: _ => JStr (slice_last (last u []))
  end.

(** What holds of the game variables after any run: no word twice, every
    word a non-empty entry of the word list, the words linked, and
    [lastLetter] the end of the last one. *)
Definition consistent (wordlist : list jsstring) (w : World) : Prop :=
  NoDup (used w) /\
  (forall x, In x (used w) -> In x wordlist /\ x <> []) /\
  linked (used w) /\
  lastLetter w = last_letter_of (used w).

(** How the turn state of the specification relates to the game
    variables along a run: no word has been played exactly in
    [AwaitingFirstMove], and in [PlayerWon] the bot has no candidate. *)
Definition phase_consistent (wordlist : list jsstring)
    (w : World) (ph : phase) : Prop :=
  consistent wordlist w /\
  (ph = AwaitingFirstMove <-> used w = []) /\
  (ph = PlayerWon -> candidates wordlist w = []).


(** ** A small word list *)

(** The word list of the specification's end-to-end scenario. *)
Definition sample_data : list item :=
  [ mkItem (lit "India") (lit "india");
    mkItem (lit "Afghanistan") (lit "afghanistan");
    mkItem (lit "Nepal") (lit "nepal");
    mkItem (lit "Laos") (lit "laos") ].

Definition sample_wordlist : list jsstring := load_wordlist sample_data.
Definition sample_prettyMap : jsstring -> jsval := load_prettyMap sample_data.

(** Two values of [Math.random()]: [+0] and the largest double below 1. *)
Definition random_zero : spec_float := S754_zero false.
Definition random_top : spec_float :=
  S754_finite false 9007199254740991 (-53).

(** The state a run on the sample word list ends in. *)
Definition sample_after (evs : list event) : World :=
  match run sample_wordlist sample_prettyMap initial evs with
  | Normal w => w
  | TypeError => initial
  end.

(** ** Loading the word list *)

(** The key [__proto__]: on an ordinary object it is the accessor of
    [Object.prototype], whose setter ignores a string. *)
Definition proto_key : jsstring := lit "__proto__".

(** An object with string values, as the function from a key to what
    [obj[key]] reads.  [obj_set obj k v] is the object after
    [obj[k] = v]. *)
Definition obj_set (obj : jsstring -> jsval) (k v : jsstring)
    : jsstring -> jsval :=
  if str_eqb k proto_key then obj
  else fun key => if str_eqb key k then JStr v else obj key.

(** The globals [wordlist] and [prettyMap]. *)
Record Globals := mkGlobals {
  g_wordlist : list jsstring;
  g_prettyMap : jsstring -> jsval
}.

(** The two globals when the script starts: [wordlist = []] and
    [prettyMap = {}], whose reads return what [Object.prototype]
    provides ([inherited], each value as it prints). *)
Definition fresh_globals (inherited : jsstring -> jsval) : Globals :=
  mkGlobals [] inherited.

(** The body of [data.forEach]: [wordlist.push(item.norm)] and
    [prettyMap[item.norm] = item.pretty]. *)
Definition load_item (g : Globals) (it : item) : Globals :=
  mkGlobals (g_wordlist g ++ [norm it])
            (obj_set (g_prettyMap g) (norm it) (pretty it)).

(** The callback of [fetch]: [data.forEach(...)]. *)
Definition fetch_callback (g : Globals) (data : list item) : Globals :=
  fold_left load_item data g.

(** ** Counting moves *)

(** The line of played words [updateUI] writes for [used = u]. *)
Definition shown_words (prettyMap : jsstring -> jsval)
    (u : list jsstring) : jsstring :=
  let joined := join (lit ", ") (map prettyMap u) in
  match joined with
  | [] => lit "None"
  | _ :: _ => joined
  end.

(** The number of [botMove] timers that run in a sequence of events. *)
Fixpoint fired (evs : list event) : nat :=
  match evs with
  | [] => 0
  | Submit _ :: rest => fired rest
  | BotTimer _ :: rest => S (fired rest)
  end.

(** The number of submissions of a run that put a word on [used]. *)
Fixpoint accepted (wordlist : list jsstring) (prettyMap : jsstring -> jsval)
    (w : World) (evs : list event) : nat :=
  match evs with
  | [] => 0
  | ev :: rest =>
      match step wordlist prettyMap w ev with
      | Normal w' =>
          (match ev with
           | Submit _ => if played w w' then 1 else 0
           | BotTimer _ => 0
           end + accepted wordlist prettyMap w' rest)%nat
      | TypeError => 0
      end
  end.

(** Every [botMove] of the run is the callback of a pending timer, as in
    the browser, where only [setTimeout] calls it. *)
Fixpoint scheduled (wordlist : list jsstring) (prettyMap : jsstring -> jsval)
    (w : World) (evs : list event) : bool :=
  match evs with
  | [] => true
  | ev :: rest =>
      match ev with
      | Submit _ => true
      | BotTimer _ => negb (timers w =? 0)%nat
      end
      && match step wordlist prettyMap w ev with
         | Normal w' => scheduled wordlist prettyMap w' rest
         | TypeError => true
         end
  end.

(** The page [playWord] and [botMove] leave after a word [x] has been
    played: [updateUI] on the new game variables. *)
Definition page_after (prettyMap : jsstring -> jsval) (x : jsstring)
    (w : World) : World :=
  updateUI prettyMap
    (set_lastLetter (JStr (slice_last x)) (set_used (used w ++ [x]) w)).

(** The display agrees with the game variables: nothing played and the
    display untouched, or the letter and the words of [updateUI]. *)
Definition synced (prettyMap : jsstring -> jsval) (w : World) : Prop :=
  (used w = [] /\ el_lastLetter w = [] /\ el_usedWords w = []) \/
  (exists c,
      lastLetter w = JStr [c] /\ el_lastLetter w = [c] /\
      el_usedWords w = shown_words prettyMap (used w)).

(** The globals after the [fetch] callback on the sample entries, and
    the state a run on them ends in. *)
Definition sample_globals : Globals :=
  fetch_callback (fresh_globals (fun _ => JUndefined)) sample_data.

Definition sample_loaded_after (evs : list event) : World :=
  match run (g_wordlist sample_globals) (g_prettyMap sample_globals)
            initial evs with
  | Normal w => w
  | TypeError => initial
  end.

(** * Properties *)

(** ** Strings and normalization *)

Lemma str_eqb_eq (a b : jsstring) : str_eqb a b = true <-> a = b.
Proof.
  revert b; induction a as [|x a IH]; intros [|y b]; simpl;
    try (split; [discriminate | congruence]); try tauto.
  rewrite andb_true_iff, Z.eqb_eq, IH.
  split; [intros [-> ->]; reflexivity | intros H; inversion H; auto].
Qed.

Lemma str_eqb_refl (a : jsstring) : str_eqb a a = true.
Proof. apply str_eqb_eq; reflexivity. Qed.

Lemma includes_In (arr : list jsstring) (w : jsstring) :
  includes arr w = true <-> In w arr.
Proof.
  unfold includes. rewrite existsb_exists. split.
  - intros (x & Hx & E). apply str_eqb_eq in E. subst; assumption.
  - intros H. exists w. split; [assumption | apply str_eqb_refl].
Qed.

Lemma includes_not_In (arr : list jsstring) (w : jsstring) :
  includes arr w = false <-> ~ In w arr.
Proof.
  rewrite <- includes_In. destruct (includes arr w); split; congruence.
Qed.

Lemma is_a_z_range (c : codeunit) : is_a_z c = true <-> 97 <= c <= 122.
Proof. unfold is_a_z. rewrite andb_true_iff, !Z.leb_le. tauto. Qed.

Lemma replace_non_a_z_filter (s : jsstring) :
  replace_non_a_z s = filter is_a_z s.
Proof. induction s as [|c t IH]; simpl; [|rewrite IH]; reflexivity. Qed.

Lemma normalizeInput_app (a b : jsstring) :
  normalizeInput (a ++ b) = normalizeInput a ++ normalizeInput b.
Proof.
  unfold normalizeInput, toLowerCase.
  rewrite flat_map_app, !replace_non_a_z_filter, filter_app. reflexivity.
Qed.

Lemma normalizeInput_a_z (x : jsstring) :
  Forall (fun c => 97 <= c <= 122) (normalizeInput x).
Proof.
  unfold normalizeInput. rewrite replace_non_a_z_filter.
  apply Forall_forall. intros c H. apply filter_In in H.
  apply is_a_z_range, H.
Qed.

(** Case analysis on the integer comparisons of the goal. *)
Ltac split_cmp :=
  repeat (simpl;
          match goal with
          | |- context [Z.leb ?a ?b] => destruct (Z.leb_spec a b); try lia
          | |- context [Z.eqb ?a ?b] => destruct (Z.eqb_spec a b); try lia
          end);
  simpl.

Lemma lowerUnit_a_z (c : codeunit) : 97 <= c <= 122 -> lowerUnit c = [c].
Proof. intros H. unfold lowerUnit. split_cmp. reflexivity. Qed.

(** A string of [a]-[z] is a fixed point of the normalization. *)
Lemma normalizeInput_fixed (s : jsstring) :
  Forall (fun c => 97 <= c <= 122) s -> normalizeInput s = s.
Proof.
  induction 1 as [|c t Hc _ IH]; [reflexivity|].
  change (c :: t) with ([c] ++ t) at 1.
  rewrite normalizeInput_app, IH.
  unfold normalizeInput, toLowerCase. simpl.
  rewrite lowerUnit_a_z by assumption. simpl.
  apply is_a_z_range in Hc. rewrite Hc. reflexivity.
Qed.

Lemma isWhiteSpace_cases (c : codeunit) :
  isWhiteSpace c = true ->
  In c [0x9; 0xA; 0xB; 0xC; 0xD; 0x20; 0xA0; 0x1680; 0x2028; 0x2029;
        0x202F; 0x205F; 0x3000; 0xFEFF] \/ 0x2000 <= c <= 0x200A.
Proof.
  unfold isWhiteSpace. rewrite orb_true_iff, existsb_exists.
  intros [(x & Hx & E) | H].
  - left. apply Z.eqb_eq in E. subst; assumption.
  - right. apply andb_true_iff in H. rewrite !Z.leb_le in H. exact H.
Qed.

(** White space leaves no trace in the normalized word. *)
Lemma normalizeInput_whitespace (c : codeunit) :
  isWhiteSpace c = true -> normalizeInput [c] = [].
Proof.
  intros H. apply isWhiteSpace_cases in H. destruct H as [H | H].
  - simpl in H.
    repeat (destruct H as [<- | H]; [reflexivity|]). contradiction.
  - unfold normalizeInput, toLowerCase, lowerUnit, flat_map, is_a_z.
    split_cmp. unfold is_a_z. split_cmp. reflexivity.
Qed.

Lemma normalizeInput_all_whitespace (ws : jsstring) :
  Forall (fun c => isWhiteSpace c = true) ws -> normalizeInput ws = [].
Proof.
  induction 1 as [|c t Hc _ IH]; [reflexivity|].
  change (c :: t) with ([c] ++ t).
  rewrite normalizeInput_app, IH, normalizeInput_whitespace by assumption.
  reflexivity.
Qed.

Lemma trimStart_split (s : jsstring) :
  exists ws, Forall (fun c => isWhiteSpace c = true) ws /\
             s = ws ++ trimStart s.
Proof.
  induction s as [|c t (ws & Hws & E)]; simpl.
  - exists []. split; [constructor | reflexivity].
  - destruct (isWhiteSpace c) eqn:Hc.
    + exists (c :: ws). split; [constructor; assumption|].
      simpl. f_equal. exact E.
    + exists []. split; [constructor | reflexivity].
Qed.

Lemma trimEnd_split (s : jsstring) :
  exists ws, Forall (fun c => isWhiteSpace c = true) ws /\
             s = trimEnd s ++ ws.
Proof.
  destruct (trimStart_split (rev s)) as (ws & Hws & E).
  exists (rev ws). split.
  - apply Forall_rev. exact Hws.
  - unfold trimEnd. rewrite <- rev_app_distr, <- E, rev_involutive.
    reflexivity.
Qed.

(** [trim] does not change what the normalization returns. *)
Lemma normalizeInput_trim (s : jsstring) :
  normalizeInput (trim s) = normalizeInput s.
Proof.
  unfold trim.
  destruct (trimStart_split s) as (ws1 & H1 & E1).
  destruct (trimEnd_split (trimStart s)) as (ws2 & H2 & E2).
  rewrite E1 at 2. rewrite E2 at 2.
  rewrite !normalizeInput_app.
  rewrite (normalizeInput_all_whitespace ws1 H1).
  rewrite (normalizeInput_all_whitespace ws2 H2).
  rewrite app_nil_r. reflexivity.
Qed.


(** ** Numbers: the random index *)

Lemma digits2_pos_bounds (p : positive) :
  2 ^ (Zpos (digits2_pos p) - 1) <= Zpos p < 2 ^ Zpos (digits2_pos p).
Proof.
  induction p as [p IH | p IH |]; simpl digits2_pos.
  - rewrite Pos2Z.inj_succ. change (Zpos p~1) with (2 * Zpos p + 1).
    replace (Z.succ (Zpos (digits2_pos p)) - 1)
      with (Z.succ (Zpos (digits2_pos p) - 1)) by lia.
    rewrite !Z.pow_succ_r by lia.
    set (A := 2 ^ (Z.pos (digits2_pos p) - 1)) in *.
    set (B := 2 ^ Z.pos (digits2_pos p)) in *. lia.
  - rewrite Pos2Z.inj_succ. change (Zpos p~0) with (2 * Zpos p).
    replace (Z.succ (Zpos (digits2_pos p)) - 1)
      with (Z.succ (Zpos (digits2_pos p) - 1)) by lia.
    rewrite !Z.pow_succ_r by lia.
    set (A := 2 ^ (Z.pos (digits2_pos p) - 1)) in *.
    set (B := 2 ^ Z.pos (digits2_pos p)) in *. lia.
  - simpl. lia.
Qed.

Lemma iter_pos_nat {A : Type} (f : A -> A) (p : positive) (x : A) :
  iter_pos f p x = Nat.iter (Pos.to_nat p) f x.
Proof.
  revert x. induction p as [p IH | p IH |]; intros x; simpl iter_pos.
  - rewrite !IH, Pos2Nat.inj_xI.
    replace (S (2 * Pos.to_nat p))
      with (Pos.to_nat p + Pos.to_nat p + 1)%nat by lia.
    rewrite !Nat.iter_add. reflexivity.
  - rewrite !IH, Pos2Nat.inj_xO.
    replace (2 * Pos.to_nat p)%nat
      with (Pos.to_nat p + Pos.to_nat p)%nat by lia.
    rewrite Nat.iter_add. reflexivity.
  - reflexivity.
Qed.

Lemma shr_1_spec (mrs : shr_record) :
  0 <= shr_m mrs ->
  shr_m (shr_1 mrs) = shr_m mrs / 2 /\ shr_r (shr_1 mrs) = Z.odd (shr_m mrs).
Proof.
  destruct mrs as [m r s]. simpl. intros Hm.
  destruct m as [|[p|p|]|p]; simpl; try lia; split; try reflexivity.
  - apply Z.div_unique with (r := 1); lia.
  - apply Z.div_unique with (r := 0); lia.
Qed.

Lemma shr_iter_m (k : nat) (mrs : shr_record) :
  0 <= shr_m mrs ->
  shr_m (Nat.iter k shr_1 mrs) = shr_m mrs / 2 ^ Z.of_nat k.
Proof.
  intros Hm. induction k as [|k IH].
  - simpl. rewrite Z.div_1_r. reflexivity.
  - rewrite Nat.iter_succ.
    destruct (shr_1_spec (Nat.iter k shr_1 mrs)) as [E _].
    + rewrite IH. apply Z.div_pos; lia.
    + rewrite E, IH, Nat2Z.inj_succ, Z.pow_succ_r by lia.
      rewrite Z.div_div by lia. f_equal. lia.
Qed.

Lemma Zdigits2_upper (z t : Z) :
  0 <= z -> 0 <= t -> z < 2 ^ t -> Zdigits2 z <= t.
Proof.
  intros Hz Ht H. destruct z as [|p|p]; simpl; try lia.
  destruct (digits2_pos_bounds p) as [L _].
  assert (E : 2 ^ (Zpos (digits2_pos p) - 1) < 2 ^ t) by lia.
  apply Z.pow_lt_mono_r_iff in E; lia.
Qed.

Lemma odd_div_mod (m K : Z) :
  0 <= m -> 0 <= K -> Z.odd (m / 2 ^ K) = true ->
  2 ^ K <= m mod 2 ^ (K + 1).
Proof.
  intros Hm HK Hodd.
  assert (P : 0 < 2 ^ K) by (apply Z.pow_pos_nonneg; lia).
  pose proof (Z.div_mod m (2 ^ K) ltac:(lia)) as E.
  pose proof (Z.mod_pos_bound m (2 ^ K) P) as B.
  rewrite (Zdiv2_odd_eqn (m / 2 ^ K)), Hodd in E.
  rewrite Z.pow_add_r, Z.pow_1_r by lia.
  set (t := Z.div2 (m / 2 ^ K)) in *.
  set (rem := m mod 2 ^ K) in *.
  assert (U : m mod (2 ^ K * 2) = 2 ^ K + rem).
  { symmetry. apply Z.mod_unique with (q := t); [left; lia | ].
    rewrite E at 1. ring. }
  rewrite U. lia.
Qed.

(** What the shift to the target exponent returns on an exact value. *)
Lemma shr_fexp_exact (m e : Z) :
  0 <= m ->
  exists mrs e',
    shr_fexp prec emax m e loc_Exact = (mrs, e') /\
    e' = Z.max e (fexp prec emax (Zdigits2 m + e)) /\
    shr_m mrs = m / 2 ^ (e' - e) /\
    (shr_r mrs = true ->
     0 < e' - e /\ 2 ^ (e' - e - 1) <= m mod 2 ^ (e' - e)).
Proof.
  intros Hm. unfold shr_fexp.
  set (f := fexp prec emax (Zdigits2 m + e)).
  destruct (f - e) as [|p|p] eqn:Hk; simpl.
  - exists (Build_shr_record m false false), e.
    repeat split; try (simpl; discriminate).
    + lia.
    + replace (e - e) with 0 by lia. simpl. rewrite Z.div_1_r. reflexivity.
  - exists (iter_pos shr_1 p (Build_shr_record m false false)), (e + Zpos p).
    assert (Ee : e + Zpos p = Z.max e f) by lia.
    replace (e + Zpos p - e) with (Zpos p) by lia.
    rewrite iter_pos_nat.
    destruct (Pos2Nat.is_succ p) as (k & Ek). rewrite Ek, Nat.iter_succ.
    assert (Ep : Zpos p = Z.of_nat k + 1) by lia.
    pose proof (shr_iter_m k (Build_shr_record m false false) Hm) as Ik.
    simpl shr_m in Ik at 2.
    assert (P : 0 < 2 ^ Z.of_nat k) by (apply Z.pow_pos_nonneg; lia).
    destruct (shr_1_spec (Nat.iter k shr_1 (Build_shr_record m false false)))
      as [E1 E2].
    { rewrite Ik. apply Z.div_pos; lia. }
    repeat split.
    + exact Ee.
    + rewrite E1, Ik, Ep, Z.pow_add_r, Z.pow_1_r by lia.
      rewrite Z.div_div by lia. reflexivity.
    + rewrite E2, Ik in H. rewrite Ep.
      replace (Z.of_nat k + 1 - 1) with (Z.of_nat k) by lia.
      apply odd_div_mod; [lia | lia | exact H].
  - exists (Build_shr_record m false false), e.
    repeat split; try (simpl; discriminate).
    + lia.
    + replace (e - e) with 0 by lia. simpl. rewrite Z.div_1_r. reflexivity.
Qed.

Lemma round_nearest_even_cases (mrs : shr_record) :
  let m1 := round_nearest_even (shr_m mrs) (loc_of_shr_record mrs) in
  m1 = shr_m mrs \/ (m1 = shr_m mrs + 1 /\ shr_r mrs = true).
Proof.
  destruct mrs as [m [|] [|]]; simpl; auto.
  destruct (Z.even m); auto.
Qed.

Lemma pow2_pos (t : Z) : 0 <= t -> 0 < 2 ^ t.
Proof. intros. apply Z.pow_pos_nonneg; lia. Qed.

Lemma pow2_split (a b : Z) : 0 <= a -> 0 <= b -> 2 ^ (a + b) = 2 ^ a * 2 ^ b.
Proof. intros. apply Z.pow_add_r; lia. Qed.

Lemma fexp_nonpos (z e n : Z) :
  0 <= z -> e <= 0 -> n < 2 ^ 53 -> z < n * 2 ^ (- e) ->
  Z.max e (fexp prec emax (Zdigits2 z + e)) <= 0.
Proof.
  intros Hz He Hn H.
  assert (P : 0 < 2 ^ (- e)) by (apply pow2_pos; lia).
  assert (D : Zdigits2 z <= 53 - e).
  { apply Zdigits2_upper; try lia.
    replace (53 - e) with (53 + - e) by lia.
    rewrite pow2_split by lia. nia. }
  unfold fexp, SpecFloat.emin, prec, emax. lia.
Qed.

(** The product of the mantissas, rounded to binary64, stays below [n]
    when the exact product lies below [n] by more than half a unit in the
    last place. *)
Lemma binary_round_aux_floor (m : positive) (e n : Z) :
  0 < n < 2 ^ 53 -> e <= 0 ->
  Zpos m < n * 2 ^ (- e) ->
  (forall k, k = fexp prec emax (Zdigits2 (Zpos m) + e) - e -> 0 < k ->
             Zpos m + 2 ^ (k - 1) < n * 2 ^ (- e)) ->
  exists j,
    Math_floor (binary_round_aux prec emax false (Zpos m) e loc_Exact) = Some j
    /\ 0 <= j < n.
Proof.
  intros Hn He H1 H2. unfold binary_round_aux.
  destruct (shr_fexp_exact (Zpos m) e ltac:(lia))
    as (mrs & e1 & -> & Ee1 & Em & Er).
  set (q := shr_m mrs) in *.
  set (m1 := round_nearest_even q (loc_of_shr_record mrs)).
  assert (He1 : e1 <= 0) by (rewrite Ee1; apply fexp_nonpos with n; lia).
  assert (K0 : 0 <= e1 - e) by lia.
  pose proof (pow2_pos (e1 - e) K0) as PK.
  pose proof (pow2_pos (- e1) ltac:(lia)) as P1.
  assert (S1 : 2 ^ (- e) = 2 ^ (- e1) * 2 ^ (e1 - e)).
  { rewrite <- pow2_split by lia. f_equal. lia. }
  assert (Hq : 0 <= q) by (rewrite Em; apply Z.div_pos; lia).
  assert (B1 : 0 <= m1 /\ m1 * 2 ^ (e1 - e) < n * 2 ^ (- e)).
  { pose proof (Z.div_mod (Zpos m) (2 ^ (e1 - e)) ltac:(lia)) as DM.
    pose proof (Z.mod_pos_bound (Zpos m) (2 ^ (e1 - e)) PK) as MB.
    rewrite <- Em in DM.
    destruct (round_nearest_even_cases mrs) as [E | [E R]];
      fold q in E; fold m1 in E; rewrite E.
    - split; [lia | nia].
    - split; [lia|]. destruct (Er R) as [Kpos Hhalf].
      specialize (H2 (e1 - e) ltac:(lia) Kpos).
      assert (S2 : 2 ^ (e1 - e) = 2 * 2 ^ (e1 - e - 1)).
      { rewrite <- Z.pow_succ_r by lia. f_equal. lia. }
      nia. }
  destruct B1 as [Hm1 B1].
  assert (B1' : m1 < n * 2 ^ (- e1)) by (rewrite S1 in B1; nia).
  destruct (shr_fexp_exact m1 e1 Hm1) as (mrs2 & e2 & -> & Ee2 & Em2 & _).
  assert (He2 : e2 <= 0) by (rewrite Ee2; apply fexp_nonpos with n; lia).
  assert (K2 : 0 <= e2 - e1) by lia.
  pose proof (pow2_pos (e2 - e1) K2) as PK2.
  pose proof (pow2_pos (- e2) ltac:(lia)) as P2.
  assert (S2 : 2 ^ (- e1) = 2 ^ (- e2) * 2 ^ (e2 - e1)).
  { rewrite <- pow2_split by lia. f_equal. lia. }
  assert (B2 : 0 <= shr_m mrs2 < n * 2 ^ (- e2)).
  { rewrite Em2. split; [apply Z.div_pos; lia|].
    apply Z.div_lt_upper_bound; [lia|]. rewrite S2 in B1'. nia. }
  destruct (shr_m mrs2) as [|p|p]; simpl.
  - exists 0. split; [reflexivity | lia].
  - replace (e2 <=? 971) with true by (symmetry; apply Z.leb_le; lia).
    simpl. exists (Z.shiftl (Zpos p) e2). split; [reflexivity|].
    rewrite Z.shiftl_div_pow2 by lia. split.
    + apply Z.div_pos; lia.
    + apply Z.div_lt_upper_bound; lia.
  - lia.
Qed.

Lemma iter_xO_value (m d : positive) :
  Zpos (Pos.iter xO m d) = Zpos m * 2 ^ Zpos d.
Proof.
  induction d as [|d IH] using Pos.peano_ind.
  - simpl. lia.
  - rewrite Pos.iter_succ, Pos2Z.inj_succ, Z.pow_succ_r by lia.
    change (Zpos (Pos.iter xO m d)~0) with (2 * Zpos (Pos.iter xO m d)).
    rewrite IH. ring.
Qed.

Lemma iter_xO_digits (m d : positive) :
  Zpos (digits2_pos (Pos.iter xO m d)) = Zpos (digits2_pos m) + Zpos d.
Proof.
  induction d as [|d IH] using Pos.peano_ind.
  - simpl. lia.
  - rewrite Pos.iter_succ. simpl digits2_pos. lia.
Qed.

(** A mantissa already at its exponent is not changed by the rounding. *)
Lemma binary_round_aux_canonical (m : positive) (e : Z) :
  fexp prec emax (Zpos (digits2_pos m) + e) = e -> e <= emax - prec ->
  binary_round_aux prec emax false (Zpos m) e loc_Exact
  = S754_finite false m e.
Proof.
  intros Hc He. unfold binary_round_aux, shr_fexp. simpl Zdigits2.
  rewrite Hc, Z.sub_diag.
  cbn [shr shr_record_of_loc shr_m loc_of_shr_record round_nearest_even
       Zdigits2].
  rewrite Hc, Z.sub_diag.
  cbn [shr shr_record_of_loc shr_m].
  apply Z.leb_le in He. rewrite He. reflexivity.
Qed.

(** The Number of a length between 1 and 2^53 is that integer, held in a
    53-bit mantissa. *)
Lemma number_of_length_exact (n : nat) :
  0 < Z.of_nat n < 2 ^ 53 ->
  exists my ey,
    number_of_length n = S754_finite false my ey /\
    -52 <= ey <= 0 /\
    Zpos my = Z.of_nat n * 2 ^ (- ey) /\
    2 ^ 52 <= Zpos my.
Proof.
  intros Hn. unfold number_of_length.
  destruct (Z.of_nat n) as [|p|p] eqn:Ep; try lia.
  unfold binary_normalize, binary_round, shl_align.
  pose proof (digits2_pos_bounds p) as [L U].
  set (d := Zpos (digits2_pos p)) in *.
  assert (Hd : 1 <= d <= 53).
  { split; [unfold d; lia|].
    assert (E : 2 ^ (d - 1) < 2 ^ 53) by lia.
    apply Z.pow_lt_mono_r_iff in E; lia. }
  assert (F : fexp prec emax (d + 0) = d - 53)
    by (unfold fexp, SpecFloat.emin, prec, emax; lia).
  rewrite F.
  destruct (d - 53 - 0) as [|k|k] eqn:Ek; try lia.
  - exists p, 0. split; [|split; [lia|split; [simpl; lia|]]].
    + apply binary_round_aux_canonical.
      * fold d. rewrite F. lia.
      * unfold emax, prec. lia.
    + assert (d = 53) by lia. subst d. rewrite H in L. exact L.
  - exists (Pos.iter xO p k), (d - 53).
    split; [|split; [lia|split]].
    + apply binary_round_aux_canonical.
      * rewrite iter_xO_digits. fold d.
        unfold fexp, SpecFloat.emin, prec, emax. lia.
      * unfold emax, prec. lia.
    + rewrite iter_xO_value. f_equal. f_equal. lia.
    + rewrite iter_xO_value.
      replace (Zpos k) with (53 - d) by lia.
      replace 52 with ((d - 1) + (53 - d)) by lia.
      rewrite pow2_split by lia.
      pose proof (pow2_pos (53 - d) ltac:(lia)). nia.
Qed.

Lemma SFone_value : SFone prec emax = S754_finite false 4503599627370496 (-52).
Proof. vm_compute. reflexivity. Qed.

Lemma SFltb_below_one (mx : positive) (ex : Z) :
  SFltb (S754_finite false mx ex) (SFone prec emax) = true ->
  ex < -52 \/ (ex = -52 /\ Zpos mx < 4503599627370496).
Proof.
  rewrite SFone_value. unfold SFltb, SFcompare.
  destruct (Z.compare_spec ex (-52)) as [E | E | E]; try discriminate.
  - rewrite Pos.compare_cont_spec. unfold Pos.switch_Eq.
    destruct (Pos.compare_spec mx 4503599627370496) as [F | F | F];
      try discriminate.
    intros _. right. split; [exact E | exact F].
  - intros _. left. exact E.
Qed.

(** A value of [Math.random()] is [+0] or at most [1 - 2^-53]. *)
Lemma unit_interval_cases (r : spec_float) :
  unit_interval r = true ->
  r = S754_zero false \/
  exists mx ex, r = S754_finite false mx ex /\ Zpos mx < 2 ^ 53 /\ ex <= -53.
Proof.
  unfold unit_interval. intros H. apply andb_true_iff in H as [V H].
  destruct r as [s| | |s mx ex]; try discriminate.
  - left. destruct s; [discriminate | reflexivity].
  - right. apply andb_true_iff in H as [Hs Hlt].
    destruct s; [discriminate|]. exists mx, ex. split; [reflexivity|].
    cbn [valid_binary] in V. unfold bounded, canonical_mantissa in V.
    apply andb_true_iff in V as [C _]. apply Z.eqb_eq in C.
    pose proof (digits2_pos_bounds mx) as [L U].
    set (d := Zpos (digits2_pos mx)) in *.
    assert (Hd : 1 <= d) by (unfold d; lia).
    unfold fexp, SpecFloat.emin, prec, emax in C.
    assert (D53 : d <= 53) by lia.
    split.
    + assert (2 ^ d <= 2 ^ 53) by (apply Z.pow_le_mono_r; lia). lia.
    + apply SFltb_below_one in Hlt. destruct Hlt as [Hlt | [E F]]; [lia|].
      assert (E53 : d - 1 = 52) by lia. rewrite E53 in L.
      assert (P52 : 2 ^ 52 = 4503599627370496) by reflexivity.
      lia.
Qed.

(** The margin below [n] that the largest random value leaves covers half
    a unit in the last place of the rounded product. *)
Lemma product_margin (mx my : positive) (ex ey n k : Z) :
  Zpos mx < 2 ^ 53 -> ex <= -53 ->
  -52 <= ey <= 0 -> Zpos my = n * 2 ^ (- ey) -> 2 ^ 52 <= Zpos my ->
  k = fexp prec emax (Zdigits2 (Zpos (mx * my)) + (ex + ey)) - (ex + ey) ->
  0 < k ->
  Zpos (mx * my) + 2 ^ (k - 1) < n * 2 ^ (- (ex + ey)).
Proof.
  intros Hmx Hex Hey Hmy Hmy52 Hk Kpos.
  replace (- (ex + ey)) with (- ey + - ex) by lia.
  rewrite pow2_split, Z.mul_assoc, <- Hmy by lia.
  rewrite Pos2Z.inj_mul.
  pose proof (digits2_pos_bounds (mx * my)) as [L _].
  rewrite Pos2Z.inj_mul in L.
  simpl Zdigits2 in Hk.
  set (d := Zpos (digits2_pos (mx * my))) in *.
  assert (T53 : 2 ^ (- ex) = 2 ^ 53 * 2 ^ (- ex - 53)).
  { rewrite <- pow2_split by lia. f_equal. lia. }
  pose proof (pow2_pos (- ex - 53) ltac:(lia)) as PT.
  pose proof (pow2_pos (k - 1) ltac:(lia)) as PP.
  set (X := Zpos mx) in *. set (Y := Zpos my) in *.
  set (P := 2 ^ (k - 1)) in *.
  unfold fexp, SpecFloat.emin, prec, emax in Hk.
  destruct (Z.max_spec (d + (ex + ey) - 53) (3 - 1024 - 53))
    as [[Hc Hm] | [Hc Hm]];
    rewrite Hm in Hk.
  - (* the result is subnormal *)
    assert (TP : 2 ^ (- ex) = P * 2 ^ (1075 + ey)).
    { unfold P. rewrite <- pow2_split by lia. f_equal. lia. }
    assert (Q : 2 ^ (1075 + ey) = 2 ^ 54 * 2 ^ (1021 + ey)).
    { rewrite <- pow2_split by lia. f_equal. lia. }
    pose proof (pow2_pos (1021 + ey) ltac:(lia)) as PQ.
    rewrite TP, Q.
    set (c := 2 ^ 53) in *.
    replace (2 ^ 54) with (2 * c) by (unfold c; reflexivity).
    set (U := 2 ^ (1021 + ey)) in *.
    assert (Hc0 : 0 < c) by (unfold c; lia).
    assert (HY : 1 <= Y) by (unfold Y; lia).
    assert (E1 : X * Y <= c * Y) by nia.
    assert (E2 : c * Y + c * P <= 2 * c * Y * P) by nia.
    assert (E3 : 2 * c * Y * P <= Y * (P * (2 * c * U))) by nia.
    nia.
  - (* the result is normal *)
    assert (PL : P * 2 ^ 53 <= X * Y).
    { unfold P. rewrite <- pow2_split by lia.
      replace (k - 1 + 53) with (d - 1) by lia. exact L. }
    rewrite T53.
    set (c := 2 ^ 53) in *. set (U := 2 ^ (- ex - 53)) in *.
    assert (Hc0 : 2 <= c) by (unfold c; lia).
    assert (HY : 1 <= Y) by (unfold Y; lia).
    assert (HX : 0 < X <= c - 1) by (unfold X; lia).
    assert (E1 : c * (X * Y + P) <= (c + 1) * (X * Y)) by nia.
    assert (E2 : (c + 1) * (X * Y) <= (c + 1) * (c - 1) * Y) by nia.
    assert (E3 : (c + 1) * (c - 1) * Y < c * (Y * c)) by nia.
    assert (E4 : c * (Y * c) <= c * (Y * (c * U))) by nia.
    nia.
Qed.

(** [Math.floor(Math.random() * n)] is one of [0], ..., [n - 1]. *)
Lemma random_index_in_range (r : spec_float) (n : nat) :
  unit_interval r = true -> 0 < Z.of_nat n < 2 ^ 53 ->
  exists j,
    Math_floor (SFmul prec emax r (number_of_length n)) = Some j /\
    0 <= j < Z.of_nat n.
Proof.
  intros Hr Hn.
  destruct (number_of_length_exact n Hn) as (my & ey & -> & Hey & Hmy & H52).
  destruct (unit_interval_cases r Hr) as [-> | (mx & ex & -> & Hmx & Hex)].
  - exists 0. split; [reflexivity | lia].
  - unfold SFmul. cbn [xorb].
    apply binary_round_aux_floor.
    + exact Hn.
    + lia.
    + replace (- (ex + ey)) with (- ey + - ex) by lia.
      rewrite pow2_split, Z.mul_assoc, <- Hmy, Pos2Z.inj_mul by lia.
      assert (2 ^ 53 <= 2 ^ (- ex)) by (apply Z.pow_le_mono_r; lia).
      nia.
    + intros k Hk Kpos.
      apply product_margin with (n := Z.of_nat n) (k := k); assumption.
Qed.

(** ** Values *)

Lemma strictEq_eq (a b : jsval) : strictEq a b = true <-> a = b.
Proof.
  destruct a as [| |x], b as [| |y]; simpl;
    try (split; [discriminate | congruence]); try tauto.
  rewrite str_eqb_eq. split; congruence.
Qed.

Lemma index0_cons (x : jsstring) (c : codeunit) :
  index0 x = JStr [c] <-> exists t, x = c :: t.
Proof.
  destruct x as [|d t]; simpl; split.
  - discriminate.
  - intros (t' & E). discriminate.
  - intros E. inversion E. exists t. reflexivity.
  - intros (t' & E). inversion E. reflexivity.
Qed.

Lemma slice_last_snoc (front : jsstring) (c : codeunit) :
  slice_last (front ++ [c]) = [c].
Proof. unfold slice_last. rewrite rev_app_distr. reflexivity. Qed.

Lemma nonempty_snoc (x : jsstring) :
  x <> [] -> exists front c, x = front ++ [c].
Proof.
  intros H. destruct (exists_last H) as (front & c & E).
  exists front, c. exact E.
Qed.

Lemma truthy_slice_last (x : jsstring) :
  x <> [] -> truthy (JStr (slice_last x)) = true.
Proof.
  intros H. destruct (nonempty_snoc x H) as (front & c & ->).
  rewrite slice_last_snoc. reflexivity.
Qed.

(** ** The result line *)

(** The seven texts of the result line are pairwise different, whatever
    letter or name they quote. *)
Lemma messages_distinct (l p q : jsval) :
  msg_enter <> msg_invalid /\ msg_enter <> msg_used /\
  msg_enter <> msg_must l /\ msg_invalid <> msg_used /\
  msg_invalid <> msg_must l /\ msg_used <> msg_must l /\
  msg_played p <> msg_enter /\ msg_played p <> msg_invalid /\
  msg_played p <> msg_used /\ msg_played p <> msg_must l /\
  msg_win <> msg_bot q.
Proof.
  unfold msg_enter, msg_invalid, msg_used, msg_must, msg_played, msg_win,
    msg_bot.
  simpl. repeat split; intros H; inversion H.
Qed.

(** ** Played words *)

Lemma NoDup_snoc {A : Type} (l : list A) (x : A) :
  NoDup l -> ~ In x l -> NoDup (l ++ [x]).
Proof.
  intros Hl Hx. apply NoDup_rev in Hl.
  replace (l ++ [x]) with (rev (x :: rev l))
    by (simpl; rewrite rev_involutive; reflexivity).
  apply NoDup_rev. constructor; [|assumption].
  rewrite <- in_rev. assumption.
Qed.

Lemma last_snoc (u : list jsstring) (x : jsstring) : last (u ++ [x]) [] = x.
Proof. apply last_last. Qed.

Lemma last_letter_of_snoc (u : list jsstring) (x : jsstring) :
  last_letter_of (u ++ [x]) = JStr (slice_last x).
Proof.
  unfold last_letter_of. destruct (u ++ [x]) eqn:E.
  - destruct u; discriminate.
  - rewrite <- E, last_snoc. reflexivity.
Qed.

Lemma linked_snoc (u : list jsstring) (x : jsstring) :
  linked u -> (u = [] \/ index0 x = last_letter_of u) -> linked (u ++ [x]).
Proof.
  induction u as [|a [|b t] IH]; intros Hl Hx.
  - exact I.
  - destruct Hx as [Hx | Hx]; [discriminate|].
    simpl. split; [exact Hx | exact I].
  - destruct Hl as [Hab Hl].
    change ((a :: b :: t) ++ [x]) with (a :: (b :: t) ++ [x]).
    change (linked (a :: (b :: t) ++ [x]))
      with (index0 b = JStr (slice_last a) /\ linked ((b :: t) ++ [x])).
    split; [exact Hab|]. apply IH; [exact Hl|].
    right. destruct Hx as [Hx | Hx]; [discriminate | exact Hx].
Qed.

(** ** One call of [playWord] and of [botMove] *)

Section GameProperties.

Variable wordlist : list jsstring.
Variable prettyMap : jsstring -> jsval.

Lemma candidates_In (w : World) (x : jsstring) :
  In x (candidates wordlist w) <->
  In x wordlist /\ index0 x = lastLetter w /\ ~ In x (used w).
Proof.
  unfold candidates. rewrite filter_In, andb_true_iff, strictEq_eq.
  rewrite negb_true_iff, includes_not_In. tauto.
Qed.

(** The five ways [playWord] ends, by the normalized input. *)
Lemma playWord_cases (w : World) :
  let nw := normalizeInput (el_userWord w) in
  let w' := playWord wordlist prettyMap w in
  (nw = [] /\ w' = setResult msg_enter w) \/
  (nw <> [] /\ ~ In nw wordlist /\ w' = setResult msg_invalid w) \/
  (nw <> [] /\ In nw wordlist /\ In nw (used w) /\
   w' = setResult msg_used w) \/
  (nw <> [] /\ In nw wordlist /\ ~ In nw (used w) /\
   truthy (lastLetter w) = true /\ index0 nw <> lastLetter w /\
   w' = setResult (msg_must (lastLetter w)) w) \/
  (nw <> [] /\ In nw wordlist /\ ~ In nw (used w) /\
   (truthy (lastLetter w) = false \/ index0 nw = lastLetter w) /\
   used w' = used w ++ [nw] /\
   lastLetter w' = JStr (slice_last nw) /\
   timers w' = S (timers w) /\
   el_result w' = msg_played (prettyMap nw)).
Proof.
  intros nw w'. subst w'. unfold playWord.
  rewrite normalizeInput_trim. fold nw.
  destruct nw as [|c t] eqn:En; [left; split; reflexivity|].
  right. cbn [truthy negb].
  assert (Hne : c :: t <> []) by discriminate.
  destruct (includes wordlist (c :: t)) eqn:Hw; cbn [negb].
  2:{ left. apply includes_not_In in Hw. repeat split; assumption. }
  apply includes_In in Hw. right.
  destruct (includes (used w) (c :: t)) eqn:Hu.
  { left. apply includes_In in Hu. repeat split; assumption. }
  apply includes_not_In in Hu. right.
  destruct (truthy (lastLetter w)) eqn:Ht; cbn [andb].
  - destruct (strictEq (index0 (c :: t)) (lastLetter w)) eqn:Hs; cbn [negb].
    + right. apply strictEq_eq in Hs.
      repeat split; try assumption. right. exact Hs.
    + left. repeat split; try assumption.
      intros E. apply strictEq_eq in E. congruence.
  - right. repeat split; try assumption. left. reflexivity.
Qed.

(** The two ways [botMove] ends normally. *)
Lemma botMove_cases (r : spec_float) (w w' : World) :
  botMove wordlist prettyMap r w = Normal w' ->
  (candidates wordlist w = [] /\ w' = setResult msg_win w) \/
  (exists x, In x (candidates wordlist w) /\
             used w' = used w ++ [x] /\
             lastLetter w' = JStr (slice_last x) /\
             timers w' = timers w /\
             el_result w' = msg_bot (prettyMap x)).
Proof.
  unfold botMove.
  destruct (candidates wordlist w) as [|a cs] eqn:Ec.
  - simpl. intros E. inversion E. left. split; reflexivity.
  - cbn [length Nat.eqb].
    set (idx := Math_floor _).
    destruct (array_get (a :: cs) idx) as [x|] eqn:Eg; [|discriminate].
    intros E. inversion E. right. exists x.
    repeat split.
    unfold array_get in Eg. destruct idx as [k|]; [|discriminate].
    destruct (0 <=? k); [|discriminate].
    apply nth_error_In in Eg. exact Eg.
Qed.

(** With a value [Math.random()] can return, [botMove] raises no
    exception. *)
Lemma botMove_total (r : spec_float) (w : World) :
  unit_interval r = true ->
  Z.of_nat (length wordlist) < 2 ^ 32 ->
  exists w', botMove wordlist prettyMap r w = Normal w'.
Proof.
  intros Hr Hlen. unfold botMove.
  pose proof (filter_length_le
    (fun x => strictEq (index0 x) (lastLetter w)
              && negb (includes (used w) x)) wordlist) as Hle.
  fold (candidates wordlist w) in Hle.
  destruct (candidates wordlist w) as [|a cs] eqn:Ec.
  - simpl. eexists. reflexivity.
  - change (length (a :: cs) =? 0)%nat with false. cbv iota.
    destruct (random_index_in_range r (length (a :: cs)) Hr) as (j & -> & Hj).
    { split; [simpl length; lia|].
      assert (2 ^ 32 < 2 ^ 53) by reflexivity. lia. }
    unfold array_get.
    replace (0 <=? j) with true by (symmetry; apply Z.leb_le; lia).
    destruct (nth_error (a :: cs) (Z.to_nat j)) as [x|] eqn:En.
    + eexists. reflexivity.
    + apply nth_error_None in En. lia.
Qed.

Lemma candidates_ext (w1 w2 : World) :
  used w1 = used w2 -> lastLetter w1 = lastLetter w2 ->
  candidates wordlist w1 = candidates wordlist w2.
Proof. unfold candidates. intros -> ->. reflexivity. Qed.

(** ** One event *)

(** An event keeps the game variables or plays one word. *)
Lemma step_cases (w w' : World) (ev : event) :
  lastLetter w <> JUndefined ->
  step wordlist prettyMap w ev = Normal w' ->
  (used w' = used w /\ lastLetter w' = lastLetter w) \/
  (exists x,
      x <> [] /\ In x wordlist /\ ~ In x (used w) /\
      (truthy (lastLetter w) = false \/ index0 x = lastLetter w) /\
      used w' = used w ++ [x] /\
      lastLetter w' = JStr (slice_last x)).
Proof.
  intros Hl. destruct ev as [raw | r]; simpl.
  - intros E. inversion E as [E']. clear E.
    destruct (playWord_cases (set_userWord raw w))
      as [[_ ->] | [(_ & _ & ->) | [(_ & _ & _ & ->) |
          [(_ & _ & _ & _ & _ & ->) | (Hne & Hw & Hu & Hc & Eu & El & _)]]]];
      try (left; split; reflexivity).
    right. exists (normalizeInput raw). simpl in *.
    repeat split; assumption.
  - intros E. apply botMove_cases in E.
    destruct E as [[_ ->] | (x & Hx & Eu & El & _)].
    + left. split; reflexivity.
    + right. exists x. apply candidates_In in Hx. simpl in Hx.
      destruct Hx as (Hw & Hi & Hu). repeat split; try assumption.
      * intros ->. simpl in Hi. congruence.
      * right. exact Hi.
Qed.

Lemma last_In (u : list jsstring) : u <> [] -> In (last u []) u.
Proof.
  induction u as [|a [|b t] IH]; intros H.
  - contradiction.
  - left. reflexivity.
  - right. apply IH. discriminate.
Qed.

Lemma consistent_truthy (w : World) :
  consistent wordlist w ->
  truthy (lastLetter w) = false -> used w = [].
Proof.
  intros (_ & Hin & _ & El) Ht. rewrite El in Ht.
  destruct (used w) as [|a t] eqn:Eu; [reflexivity|].
  unfold last_letter_of in Ht.
  rewrite truthy_slice_last in Ht; [discriminate|].
  apply (Hin (last (a :: t) [])). apply last_In. discriminate.
Qed.

Lemma consistent_defined (w : World) :
  consistent wordlist w -> lastLetter w <> JUndefined.
Proof.
  intros (_ & _ & _ & El). rewrite El. unfold last_letter_of.
  destruct (used w); discriminate.
Qed.

Lemma consistent_initial : consistent wordlist initial.
Proof.
  repeat split; simpl; try contradiction. constructor.
Qed.

Lemma consistent_step (w w' : World) (ev : event) :
  consistent wordlist w ->
  step wordlist prettyMap w ev = Normal w' ->
  consistent wordlist w'.
Proof.
  intros Hc Hs.
  destruct (step_cases w w' ev (consistent_defined w Hc) Hs)
    as [[Eu El] | (x & Hne & Hw & Hu & Hl & Eu & El)].
  - destruct Hc as (H1 & H2 & H3 & H4).
    unfold consistent. rewrite Eu, El. repeat split; try assumption;
      apply H2; assumption.
  - pose proof (consistent_truthy w Hc) as Ht.
    destruct Hc as (H1 & H2 & H3 & H4).
    unfold consistent. rewrite Eu, El. split; [|split; [|split]].
    + apply NoDup_snoc; assumption.
    + intros y Hy. apply in_app_or in Hy. destruct Hy as [Hy | [<- | []]].
      * apply H2. exact Hy.
      * split; assumption.
    + apply linked_snoc; [exact H3|].
      destruct Hl as [Hl | Hl]; [left; apply Ht; exact Hl|].
      right. rewrite <- H4. exact Hl.
    + symmetry. apply last_letter_of_snoc.
Qed.

(** ** Runs *)

Lemma run_consistent (evs : list event) (w0 w : World) :
  consistent wordlist w0 ->
  run wordlist prettyMap w0 evs = Normal w ->
  consistent wordlist w.
Proof.
  revert w0. induction evs as [|ev rest IH]; intros w0 Hc; simpl.
  - intros E. inversion E. subst. exact Hc.
  - destruct (step wordlist prettyMap w0 ev) as [w1|] eqn:Es;
      [|discriminate].
    apply IH. apply (consistent_step w0 w1 ev Hc Es).
Qed.

Lemma step_total (w : World) (ev : event) :
  random_ok ev = true ->
  Z.of_nat (length wordlist) < 2 ^ 32 ->
  exists w', step wordlist prettyMap w ev = Normal w'.
Proof.
  intros Hr Hlen. destruct ev as [raw | r]; simpl.
  - eexists. reflexivity.
  - apply botMove_total; assumption.
Qed.

(** With values [Math.random()] can return, a run raises no exception. *)
Lemma run_total (evs : list event) (w0 : World) :
  forallb random_ok evs = true ->
  Z.of_nat (length wordlist) < 2 ^ 32 ->
  exists w, run wordlist prettyMap w0 evs = Normal w.
Proof.
  intros Hr Hlen. revert w0 Hr.
  induction evs as [|ev rest IH]; intros w0 Hr; simpl.
  - eexists. reflexivity.
  - simpl in Hr. apply andb_true_iff in Hr as [Hev Hrest].
    destruct (step_total w0 ev Hev Hlen) as (w1 & ->).
    apply IH. exact Hrest.
Qed.

Lemma run_phase_run (evs : list event) (w0 w : World) (ph0 ph : phase) :
  run_phase wordlist prettyMap w0 ph0 evs = Normal (w, ph) ->
  run wordlist prettyMap w0 evs = Normal w.
Proof.
  revert w0 ph0. induction evs as [|ev rest IH]; intros w0 ph0; simpl.
  - intros E. inversion E. reflexivity.
  - destruct (step wordlist prettyMap w0 ev) as [w1|]; [|discriminate].
    apply IH.
Qed.

(** ** Turn states *)

Lemma played_same (w w' : World) : used w' = used w -> played w w' = false.
Proof. unfold played. intros ->. rewrite Nat.eqb_refl. reflexivity. Qed.

Lemma played_snoc (w w' : World) (x : jsstring) :
  used w' = used w ++ [x] -> played w w' = true.
Proof.
  unfold played. intros ->. rewrite length_app. simpl.
  apply negb_true_iff, Nat.eqb_neq. lia.
Qed.

Lemma phase_consistent_step (w w' : World) (ph : phase) (ev : event) :
  phase_consistent wordlist w ph ->
  step wordlist prettyMap w ev = Normal w' ->
  phase_consistent wordlist w' (spec_next ph ev w w').
Proof.
  intros (Hc & Hfirst & Hwon) Hs.
  pose proof (consistent_step w w' ev Hc Hs) as Hc'.
  split; [exact Hc'|].
  destruct ev as [raw | r].
  - destruct (step_cases w w' _ (consistent_defined w Hc) Hs)
      as [[Eu El] | (x & Hne & Hw & Hu & Hl & Eu & El)].
    + assert (Eph : spec_next ph (Submit raw) w w' = ph).
      { unfold spec_next. rewrite (played_same w w' Eu).
        destruct ph; reflexivity. }
      rewrite Eph, Eu. split; [exact Hfirst|].
      intros Hp. rewrite (candidates_ext w' w Eu El). apply Hwon, Hp.
    + assert (Hnw : ph <> PlayerWon).
      { intros Hp. specialize (Hwon Hp).
        destruct Hl as [Hl | Hl].
        - apply (consistent_truthy w Hc) in Hl. apply Hfirst in Hl.
          congruence.
        - assert (Hx : In x (candidates wordlist w))
            by (apply candidates_In; repeat split; assumption).
          rewrite Hwon in Hx. contradiction. }
      unfold spec_next. rewrite (played_snoc w w' x Eu), Eu.
      split.
      * split; [destruct ph; discriminate|].
        intros E. destruct (used w); discriminate.
      * destruct ph; try discriminate. contradiction.
  - simpl in Hs. apply botMove_cases in Hs.
    destruct Hs as [[Ecs ->] | (x & Hx & Eu & El & _)].
    + simpl in Ecs. unfold spec_next.
      rewrite played_same by reflexivity. simpl used.
      assert (Ecs' : candidates wordlist
                       (setResult msg_win (set_timers (pred (timers w)) w))
                     = []) by exact Ecs.
      split.
      * destruct ph; try exact Hfirst.
        split; [discriminate|]. intros E. apply Hfirst in E. discriminate.
      * intros _. exact Ecs'.
    + apply candidates_In in Hx. simpl in Hx, Eu.
      destruct Hx as (Hw & Hi & Hu).
      assert (Hnf : ph <> AwaitingFirstMove).
      { intros Hp. apply Hfirst in Hp.
        destruct Hc as (_ & _ & _ & Hll). rewrite Hp in Hll.
        simpl in Hll. rewrite Hll in Hi. destruct x; discriminate. }
      assert (Hnw : ph <> PlayerWon).
      { intros Hp. specialize (Hwon Hp).
        assert (Hx : In x (candidates wordlist w))
          by (apply candidates_In; repeat split; assumption).
        rewrite Hwon in Hx. contradiction. }
      unfold spec_next. rewrite (played_snoc w w' x Eu), Eu.
      split.
      * split; [destruct ph; try discriminate; contradiction|].
        intros E. destruct (used w); discriminate.
      * destruct ph; try discriminate. contradiction.
Qed.

Lemma phase_consistent_initial :
  phase_consistent wordlist initial AwaitingFirstMove.
Proof.
  split; [apply consistent_initial|]. split; [|discriminate].
  split; reflexivity.
Qed.

Lemma run_phase_consistent (evs : list event) (w0 w : World)
    (ph0 ph : phase) :
  phase_consistent wordlist w0 ph0 ->
  run_phase wordlist prettyMap w0 ph0 evs = Normal (w, ph) ->
  phase_consistent wordlist w ph.
Proof.
  revert w0 ph0. induction evs as [|ev rest IH]; intros w0 ph0 Hc; simpl.
  - intros E. inversion E. subst. exact Hc.
  - destruct (step wordlist prettyMap w0 ev) as [w1|] eqn:Es;
      [|discriminate].
    apply IH. apply (phase_consistent_step w0 w1 ph0 ev Hc Es).
Qed.

(** ** The bot's move *)

(** With a candidate to play, [botMove] picks the word at the floored
    random index and plays it. *)
Lemma botMove_plays (r : spec_float) (w : World) :
  candidates wordlist w <> [] ->
  unit_interval r = true ->
  Z.of_nat (length wordlist) < 2 ^ 32 ->
  exists k x w',
    Math_floor (SFmul prec emax r
                  (number_of_length (length (candidates wordlist w))))
    = Some k /\
    0 <= k < Z.of_nat (length (candidates wordlist w)) /\
    array_get (candidates wordlist w) (Some k) = Some x /\
    In x (candidates wordlist w) /\
    botMove wordlist prettyMap r w = Normal w' /\
    used w' = used w ++ [x] /\
    lastLetter w' = JStr (slice_last x) /\
    el_result w' = msg_bot (prettyMap x).
Proof.
  intros Hne Hr Hlen. unfold botMove.
  pose proof (filter_length_le
    (fun x => strictEq (index0 x) (lastLetter w)
              && negb (includes (used w) x)) wordlist) as Hle.
  fold (candidates wordlist w) in Hle.
  set (cs := candidates wordlist w) in *.
  assert (Hpos : (0 < length cs)%nat)
    by (destruct cs; [contradiction | simpl; lia]).
  replace (length cs =? 0)%nat with false
    by (symmetry; apply Nat.eqb_neq; lia).
  destruct (random_index_in_range r (length cs) Hr) as (k & Ek & Hk).
  { split; [lia|]. assert (2 ^ 32 < 2 ^ 53) by reflexivity. lia. }
  rewrite Ek.
  assert (Eg : exists x, array_get cs (Some k) = Some x).
  { unfold array_get.
    replace (0 <=? k) with true by (symmetry; apply Z.leb_le; lia).
    destruct (nth_error cs (Z.to_nat k)) as [x|] eqn:En.
    - exists x. reflexivity.
    - apply nth_error_None in En. lia. }
  destruct Eg as (x & Eg). rewrite Eg.
  exists k, x. eexists. repeat split; try reflexivity; try lia.
  - exact Eg.
  - unfold array_get in Eg. destruct (0 <=? k); [|discriminate].
    apply nth_error_In in Eg. exact Eg.
Qed.

(** Without a candidate, [botMove] reports the player's win and leaves
    the game variables alone. *)
Lemma botMove_stuck (r : spec_float) (w : World) :
  candidates wordlist w = [] ->
  botMove wordlist prettyMap r w = Normal (setResult msg_win w).
Proof. unfold botMove. intros ->. reflexivity. Qed.

Lemma consistent_truthy_iff (w : World) :
  consistent wordlist w ->
  (truthy (lastLetter w) = true <-> used w <> []).
Proof.
  intros Hc. split.
  - intros Ht Eu. destruct Hc as (_ & _ & _ & El).
    rewrite El, Eu in Ht. discriminate.
  - intros Hne. destruct (truthy (lastLetter w)) eqn:Ht; [reflexivity|].
    apply (consistent_truthy w Hc) in Ht. contradiction.
Qed.

(** After a move of the player the required letter is one of [a]-[z],
    whatever the word list holds. *)
Lemma player_move_letter (w : World) (raw : jsstring) :
  let w' := playWord wordlist prettyMap (set_userWord raw w) in
  used w' = used w \/
  exists c, lastLetter w' = JStr [c] /\ 97 <= c <= 122.
Proof.
  intros w'. subst w'.
  destruct (playWord_cases (set_userWord raw w))
    as [[_ ->] | [(_ & _ & ->) | [(_ & _ & _ & ->) |
        [(_ & _ & _ & _ & _ & ->) | (Hne & _ & _ & _ & _ & El & _)]]]];
    try (left; reflexivity).
  right. simpl in Hne, El.
  destruct (nonempty_snoc _ Hne) as (front & c & E).
  exists c. rewrite El, E, slice_last_snoc. split; [reflexivity|].
  pose proof (normalizeInput_a_z raw) as Ha. rewrite E in Ha.
  apply Forall_app in Ha. destruct Ha as [_ Ha].
  inversion Ha. assumption.
Qed.

(** ** The claims about the game *)

(** C1.  After every sequence of events (moves of the player through
    [playWord], moves of the bot through [botMove], with values
    [Math.random()] can return), the run has ended normally, [used] holds
    no word twice, each of its words is an entry of the word list, each
    word starts with the last letter of the word before it, and any
    further move that is accepted while a word has been played appends a
    word whose first character is the required letter [lastLetter] in
    force at that moment. *)
Theorem played_words_invariant (evs : list event) :
  forallb random_ok evs = true ->
  Z.of_nat (length wordlist) < 2 ^ 32 ->
  exists w,
    run wordlist prettyMap initial evs = Normal w /\
    NoDup (used w) /\
    (forall x, In x (used w) -> In x wordlist) /\
    linked (used w) /\
    (forall ev w',
        step wordlist prettyMap w ev = Normal w' ->
        used w' = used w \/
        exists x,
          used w' = used w ++ [x] /\
          (used w <> [] ->
           exists c t, x = c :: t /\ lastLetter w = JStr [c])).
Proof.
  intros Hr Hlen.
  destruct (run_total evs initial Hr Hlen) as (w & Hrun).
  pose proof (run_consistent evs initial w consistent_initial Hrun) as Hc.
  exists w. split; [exact Hrun|].
  pose proof Hc as (H1 & H2 & H3 & H4).
  split; [exact H1|]. split; [intros x Hx; apply H2; exact Hx|].
  split; [exact H3|].
  intros ev w' Hs.
  destruct (step_cases w w' ev (consistent_defined w Hc) Hs)
    as [[Eu _] | (x & Hne & _ & _ & Hl & Eu & _)].
  - left. exact Eu.
  - right. exists x. split; [exact Eu|]. intros Hu.
    destruct Hl as [Hl | Hl].
    + apply (consistent_truthy w Hc) in Hl. contradiction.
    + destruct x as [|c t]; [contradiction|].
      exists c, t. split; [reflexivity|]. symmetry. exact Hl.
Qed.

(** C2.  For every input [raw] and every state, when [playWord] rejects
    the input (empty after normalization, not in the word list, already
    used, or not starting with the required letter) it leaves [used],
    [lastLetter] and the pending timers as they are, and each of the
    four checks writes a text of its own on the result line, different
    from the three others and from the text of an accepted move. *)
Theorem playWord_rejection_keeps_state (w : World) (raw : jsstring) :
  let nw := normalizeInput raw in
  let w' := playWord wordlist prettyMap (set_userWord raw w) in
  (nw = [] \/ ~ In nw wordlist \/ In nw (used w) \/
   (truthy (lastLetter w) = true /\ index0 nw <> lastLetter w) ->
   used w' = used w /\ lastLetter w' = lastLetter w /\
   timers w' = timers w) /\
  (nw = [] -> el_result w' = msg_enter) /\
  (nw <> [] -> ~ In nw wordlist -> el_result w' = msg_invalid) /\
  (nw <> [] -> In nw wordlist -> In nw (used w) ->
   el_result w' = msg_used) /\
  (nw <> [] -> In nw wordlist -> ~ In nw (used w) ->
   truthy (lastLetter w) = true -> index0 nw <> lastLetter w ->
   el_result w' = msg_must (lastLetter w)) /\
  (forall l p,
      msg_enter <> msg_invalid /\ msg_enter <> msg_used /\
      msg_enter <> msg_must l /\ msg_invalid <> msg_used /\
      msg_invalid <> msg_must l /\ msg_used <> msg_must l /\
      msg_played p <> msg_enter /\ msg_played p <> msg_invalid /\
      msg_played p <> msg_used /\ msg_played p <> msg_must l).
Proof.
  intros nw w'. subst nw w'.
  pose proof (playWord_cases (set_userWord raw w)) as Hcases.
  simpl in Hcases.
  split; [|split; [|split; [|split; [|split]]]].
  - intros Hrej.
    destruct Hcases
      as [[_ ->] | [(_ & _ & ->) | [(_ & _ & _ & ->) |
          [(_ & _ & _ & _ & _ & ->) | (Hne & Hw & Hu & Hc & _)]]]];
      try (repeat split; reflexivity).
    destruct Hrej as [E | [E | [E | [Ht E]]]]; try contradiction.
    destruct Hc as [Hc | Hc]; congruence.
  - intros E.
    destruct Hcases
      as [[_ ->] | [(Hne & _) | [(Hne & _) | [(Hne & _) | (Hne & _)]]]];
      try contradiction. reflexivity.
  - intros Hne Hw.
    destruct Hcases
      as [[E _] | [(_ & _ & ->) | [(_ & Hw' & _) | [(_ & Hw' & _) |
          (_ & Hw' & _)]]]];
      try contradiction. reflexivity.
  - intros Hne Hw Hu.
    destruct Hcases
      as [[E _] | [(_ & Hw' & _) | [(_ & _ & _ & ->) |
          [(_ & _ & Hu' & _) | (_ & _ & Hu' & _)]]]];
      try contradiction. reflexivity.
  - intros Hne Hw Hu Ht Hi.
    destruct Hcases
      as [[E _] | [(_ & Hw' & _) | [(_ & _ & Hu' & _) |
          [(_ & _ & _ & _ & _ & ->) | (_ & _ & _ & Hc & _)]]]];
      try contradiction; [reflexivity|].
    destruct Hc as [Hc | Hc]; congruence.
  - intros l p.
    pose proof (messages_distinct l p JNull) as D. tauto.
Qed.

(** C3.  In a state whose required letter is [c], the candidates of
    [botMove] are exactly the entries of the word list that start with
    [c] and are not in [used].  Without a candidate, [botMove] reports
    the player's win (the turn state [PlayerWon] of the specification),
    plays no word and leaves [used] and [lastLetter] as they are; with
    one, it plays a word of the candidates. *)
Theorem botMove_candidates (w : World) (c : codeunit) (r : spec_float) :
  lastLetter w = JStr [c] ->
  (forall x,
      In x (candidates wordlist w) <->
      In x wordlist /\ (exists t, x = c :: t) /\ ~ In x (used w)) /\
  (candidates wordlist w = [] ->
   exists w',
     botMove wordlist prettyMap r w = Normal w' /\
     el_result w' = msg_win /\
     used w' = used w /\ lastLetter w' = lastLetter w /\
     spec_next AwaitingBotMove (BotTimer r) w w' = PlayerWon) /\
  (candidates wordlist w <> [] ->
   unit_interval r = true ->
   Z.of_nat (length wordlist) < 2 ^ 32 ->
   exists x w',
     In x (candidates wordlist w) /\
     botMove wordlist prettyMap r w = Normal w' /\
     used w' = used w ++ [x] /\
     lastLetter w' = JStr (slice_last x) /\
     spec_next AwaitingBotMove (BotTimer r) w w' = AwaitingPlayerMove).
Proof.
  intros El. split; [|split].
  - intros x. rewrite candidates_In, El, index0_cons. tauto.
  - intros Ec. exists (setResult msg_win w).
    split; [apply botMove_stuck; exact Ec|].
    repeat split. unfold spec_next.
    rewrite played_same by reflexivity. reflexivity.
  - intros Hne Hr Hlen.
    destruct (botMove_plays r w Hne Hr Hlen)
      as (k & x & w' & _ & _ & _ & Hx & Hb & Eu & Ell & _).
    exists x, w'. repeat split; try assumption.
    unfold spec_next. rewrite (played_snoc w w' x Eu). reflexivity.
Qed.

(** C4, as the script has it.  After any run and for every input, with
    [nw] the normalized input: the result line says "Invalid country"
    exactly when [nw] is non-empty and not in the word list; it says
    "Already used" exactly when [nw] is in the word list and in [used];
    it says "Must start with" exactly when [nw] is a non-empty entry of
    the word list that is not in [used], a word has been played and the
    first character of [nw] is not the required letter; and while no
    word has been played, every non-empty entry of the word list is
    accepted. *)
Theorem playWord_failure_kinds (evs : list event) (w : World)
    (raw : jsstring) :
  run wordlist prettyMap initial evs = Normal w ->
  let nw := normalizeInput raw in
  let w' := playWord wordlist prettyMap (set_userWord raw w) in
  (el_result w' = msg_invalid <-> nw <> [] /\ ~ In nw wordlist) /\
  (el_result w' = msg_used <-> In nw wordlist /\ In nw (used w)) /\
  (el_result w' = msg_must (lastLetter w) <->
   nw <> [] /\ In nw wordlist /\ ~ In nw (used w) /\
   used w <> [] /\ index0 nw <> lastLetter w) /\
  (used w = [] -> nw <> [] -> In nw wordlist ->
   used w' = [nw] /\ lastLetter w' = JStr (slice_last nw)).
Proof.
  intros Hrun nw w'. subst nw w'.
  pose proof (run_consistent evs initial w consistent_initial Hrun) as Hc.
  pose proof (consistent_truthy_iff w Hc) as Ht.
  pose proof Hc as (_ & Hin & _ & _).
  pose proof (messages_distinct (lastLetter w)
                (prettyMap (normalizeInput raw)) JNull) as D.
  pose proof (playWord_cases (set_userWord raw w)) as Hcases.
  simpl in Hcases.
  pose proof (Hin (normalizeInput raw)) as Hin'.
  destruct D as (D1 & D2 & D3 & D4 & D5 & D6 & D7 & D8 & D9 & D10 & _).
  destruct Hcases
    as [[E ->] | [(Hne & Hw & ->) | [(Hne & Hw & Hu & ->) |
        [(Hne & Hw & Hu & Htr & Hi & ->) |
         (Hne & Hw & Hu & Hl & Eu & El & _ & Er)]]]];
    simpl el_result; simpl used; simpl lastLetter;
    try rewrite Er; try rewrite Eu; try rewrite El;
    (split; [intuition congruence|]);
    (split; [intuition congruence|]);
    (split; [intuition congruence|]);
    intros Hu0 Hne' Hw'.
  - contradiction.
  - contradiction.
  - rewrite Hu0 in Hu. contradiction.
  - apply Ht in Htr. contradiction.
  - rewrite Hu0. split; reflexivity.
Qed.

(** C5.  After any run, [lastLetter] is [null] with no word played, or
    the last character of the word played last.  In such a state, a
    submission that passes the four checks is accepted: its normalized
    form is appended to the end of [used] and [lastLetter] becomes that
    word's last character, and the "You played" text appears in no other
    case; a bot move with a candidate appends the candidate at the
    floored random index to the end of [used] and sets [lastLetter] to
    that word's last character; and no event does anything else to
    [used] and [lastLetter] than keeping both or appending one word and
    setting [lastLetter] to its last character. *)
Theorem required_letter_is_last_character (evs : list event) (w : World) :
  run wordlist prettyMap initial evs = Normal w ->
  ((used w = [] /\ lastLetter w = JNull) \/
   (exists front c,
       last (used w) [] = front ++ [c] /\ lastLetter w = JStr [c])) /\
  (forall raw,
      let nw := normalizeInput raw in
      let w' := playWord wordlist prettyMap (set_userWord raw w) in
      (nw <> [] /\ In nw wordlist /\ ~ In nw (used w) /\
       (used w = [] \/ index0 nw = lastLetter w) ->
       el_result w' = msg_played (prettyMap nw) /\
       exists front c,
         nw = front ++ [c] /\
         used w' = used w ++ [nw] /\ lastLetter w' = JStr [c]) /\
      (el_result w' = msg_played (prettyMap nw) ->
       exists front c,
         nw = front ++ [c] /\
         used w' = used w ++ [nw] /\ lastLetter w' = JStr [c])) /\
  (forall r,
      unit_interval r = true ->
      Z.of_nat (length wordlist) < 2 ^ 32 ->
      candidates wordlist w <> [] ->
      exists x front c w',
        array_get (candidates wordlist w)
          (Math_floor (SFmul prec emax r
             (number_of_length (length (candidates wordlist w)))))
        = Some x /\
        x = front ++ [c] /\
        botMove wordlist prettyMap r w = Normal w' /\
        used w' = used w ++ [x] /\ lastLetter w' = JStr [c]) /\
  (forall ev w',
      step wordlist prettyMap w ev = Normal w' ->
      (used w' = used w /\ lastLetter w' = lastLetter w) \/
      (exists front c,
          used w' = used w ++ [front ++ [c]] /\
          lastLetter w' = JStr [c])).
Proof.
  intros Hrun.
  pose proof (run_consistent evs initial w consistent_initial Hrun) as Hc.
  split; [|split; [|split]].
  - pose proof Hc as (_ & Hin & _ & El).
    destruct (used w) as [|a t] eqn:Eu.
    + left. split; [reflexivity | exact El].
    + right. rewrite <- Eu in *.
      assert (Hne : used w <> []) by (rewrite Eu; discriminate).
      destruct (Hin _ (last_In _ Hne)) as [_ Hl].
      destruct (nonempty_snoc _ Hl) as (front & c & E).
      exists front, c. split; [exact E|].
      rewrite El. unfold last_letter_of. rewrite Eu, <- Eu, E.
      rewrite slice_last_snoc. reflexivity.
  - intros raw nw w'. subst nw w'.
    pose proof (consistent_truthy_iff w Hc) as Ht.
    pose proof (messages_distinct (lastLetter w)
                  (prettyMap (normalizeInput raw)) JNull)
      as (_ & _ & _ & _ & _ & _ & D7 & D8 & D9 & D10 & _).
    destruct (playWord_cases (set_userWord raw w))
      as [[E ->] | [(Hne & Hw & ->) | [(Hne & Hw & Hu & ->) |
          [(Hne & Hw & Hu & Htr & Hi & ->) |
           (Hne & Hw & Hu & Hl & Eu & El & _ & Er)]]]];
      simpl in *.
    + split; [intros (H & _); contradiction|].
      intros E'. symmetry in E'. contradiction.
    + split; [intros (_ & H & _); contradiction|].
      intros E'. symmetry in E'. contradiction.
    + split; [intros (_ & _ & H & _); contradiction|].
      intros E'. symmetry in E'. contradiction.
    + split.
      * intros (_ & _ & _ & [H | H]); [|contradiction].
        apply Ht in Htr. contradiction.
      * intros E'. symmetry in E'. contradiction.
    + destruct (nonempty_snoc _ Hne) as (front & c & E).
      assert (G : exists front c,
                 normalizeInput raw = front ++ [c] /\
                 used (playWord wordlist prettyMap (set_userWord raw w))
                 = used w ++ [normalizeInput raw] /\
                 lastLetter (playWord wordlist prettyMap (set_userWord raw w))
                 = JStr [c]).
      { exists front, c. split; [exact E|]. split; [exact Eu|].
        rewrite El, E, slice_last_snoc. reflexivity. }
      split; [intros _; split; [exact Er | exact G] | intros _; exact G].
  - intros r Hr Hlen Hne.
    destruct (botMove_plays r w Hne Hr Hlen)
      as (k & x & w' & Ek & _ & Eg & Hx & Hb & Eu & El & _).
    apply candidates_In in Hx. destruct Hx as (_ & Hi & _).
    assert (Hxne : x <> []).
    { intros ->. simpl in Hi. apply (consistent_defined w Hc). congruence. }
    destruct (nonempty_snoc x Hxne) as (front & c & E).
    exists x, front, c, w'. rewrite Ek.
    split; [exact Eg|]. split; [exact E|]. split; [exact Hb|].
    split; [exact Eu|]. rewrite El, E, slice_last_snoc. reflexivity.
  - intros ev w' Hs.
    destruct (step_cases w w' ev (consistent_defined w Hc) Hs)
      as [H | (x & Hne & _ & _ & _ & Eu & El)].
    + left. exact H.
    + right. destruct (nonempty_snoc x Hne) as (front & c & ->).
      exists front, c. rewrite slice_last_snoc in El.
      split; assumption.
Qed.

(** C6, as the script has it.  When no player move has been accepted
    yet ([AwaitingFirstMove]) or the bot has found no word
    ([PlayerWon]), [botMove] plays no word: it ends normally and leaves
    [used], [lastLetter] and the timers as they are.  The script keeps
    no turn state: in [AwaitingPlayerMove], with a candidate in the word
    list, [botMove] plays a word. *)
Theorem botMove_outside_turn (evs : list event) (w : World) (ph : phase)
    (r : spec_float) :
  run_phase wordlist prettyMap initial AwaitingFirstMove evs
  = Normal (w, ph) ->
  (ph = AwaitingFirstMove \/ ph = PlayerWon ->
   exists w',
     botMove wordlist prettyMap r w = Normal w' /\
     used w' = used w /\ lastLetter w' = lastLetter w /\
     timers w' = timers w) /\
  (ph = AwaitingPlayerMove ->
   candidates wordlist w <> [] ->
   unit_interval r = true ->
   Z.of_nat (length wordlist) < 2 ^ 32 ->
   exists x w',
     botMove wordlist prettyMap r w = Normal w' /\
     used w' = used w ++ [x]).
Proof.
  intros Hrun.
  pose proof (run_phase_consistent evs initial w AwaitingFirstMove ph
                phase_consistent_initial Hrun) as (Hc & Hfirst & Hwon).
  split.
  - intros Hph. exists (setResult msg_win w).
    split; [|repeat split].
    apply botMove_stuck. destruct Hph as [Hph | Hph].
    + apply Hfirst in Hph. destruct Hc as (_ & _ & _ & El).
      rewrite Hph in El. simpl in El.
      destruct (candidates wordlist w) as [|x cs] eqn:Ec; [reflexivity|].
      assert (Hx : In x (candidates wordlist w))
        by (rewrite Ec; left; reflexivity).
      apply candidates_In in Hx. destruct Hx as (_ & Hi & _).
      rewrite El in Hi. destruct x; discriminate.
    + apply Hwon. exact Hph.
  - intros _ Hne Hr Hlen.
    destruct (botMove_plays r w Hne Hr Hlen)
      as (k & x & w' & _ & _ & _ & _ & Hb & Eu & _).
    exists x, w'. split; assumption.
Qed.

(** ** The claims about the normalization and the random index *)



(** C9.  Whenever the bot has a candidate, the index
    [Math.floor(r * candidates.length)] computed in binary64 arithmetic
    from a value [r] that [Math.random()] can return (a double with
    [0 <= r < 1]) is an integer from [0] to [candidates.length - 1]:
    the word selected is an element of the candidates, never
    [undefined], and [botMove] plays it without raising an exception. *)
Theorem bot_index_in_bounds (w : World) (r : spec_float) :
  candidates wordlist w <> [] ->
  unit_interval r = true ->
  Z.of_nat (length wordlist) < 2 ^ 32 ->
  exists k x w',
    Math_floor (SFmul prec emax r
                  (number_of_length (length (candidates wordlist w))))
    = Some k /\
    0 <= k < Z.of_nat (length (candidates wordlist w)) /\
    array_get (candidates wordlist w) (Some k) = Some x /\
    In x (candidates wordlist w) /\
    botMove wordlist prettyMap r w = Normal w' /\
    used w' = used w ++ [x].
Proof.
  intros Hne Hr Hlen.
  destruct (botMove_plays r w Hne Hr Hlen)
    as (k & x & w' & Ek & Hk & Eg & Hx & Hb & Eu & _).
  exists k, x, w'. repeat split; try assumption; lia.
Qed.


End GameProperties.

(** C8.  The normalization is idempotent: normalizing a normalized word
    returns it unchanged. *)
Theorem normalizeInput_idempotent (x : jsstring) :
  normalizeInput (normalizeInput x) = normalizeInput x.
Proof. apply normalizeInput_fixed, normalizeInput_a_z. Qed.

(** * The sample word list *)

(** The end-to-end scenario of the specification: four accepted words of
    the player, then the bot finds no word starting with [s]. *)
Example sample_scenario :
  let w := sample_after [Submit (lit "India"); Submit (lit "afghanistan");
                         Submit (lit "nepal"); Submit (lit "laos");
                         BotTimer random_top] in
  used w = map lit ["india"; "afghanistan"; "nepal"; "laos"]%string /\
  lastLetter w = JStr (lit "s") /\
  el_result w = msg_win /\
  el_usedWords w = lit "India, Afghanistan, Nepal, Laos".
Proof. vm_compute. repeat split. Qed.

(** One move each: the bot answers "India" with "Afghanistan". *)
Example sample_bot_answer :
  let w := sample_after [Submit (lit " In-dia "); BotTimer random_top] in
  used w = map lit ["india"; "afghanistan"]%string /\
  lastLetter w = JStr (lit "n") /\
  el_result w = msg_bot (JStr (lit "Afghanistan")).
Proof. vm_compute. repeat split. Qed.

(** The same word again, and a word with the wrong first letter. *)
Example sample_rejections :
  let w := sample_after [Submit (lit "India")] in
  el_result (playWord sample_wordlist sample_prettyMap
               (set_userWord (lit "India") w)) = msg_used /\
  el_result (playWord sample_wordlist sample_prettyMap
               (set_userWord (lit "nepal") w)) = msg_must (JStr (lit "a")) /\
  el_result (playWord sample_wordlist sample_prettyMap
               (set_userWord (lit "peru") w)) = msg_invalid /\
  el_result (playWord sample_wordlist sample_prettyMap
               (set_userWord (lit " -- ") w)) = msg_enter.
Proof. vm_compute. repeat split. Qed.

Lemma sample_after_run (evs : list event) :
  forallb random_ok evs = true ->
  run sample_wordlist sample_prettyMap initial evs = Normal (sample_after evs).
Proof.
  intros Hr. unfold sample_after.
  destruct (run_total sample_wordlist sample_prettyMap evs initial Hr)
    as (w & ->); reflexivity.
Qed.

(** * The claims on the sample word list *)

(** C1 on the sample word list, after "India" and the bot's answer. *)
Lemma played_words_invariant_witness :
  let wordlist := sample_wordlist in
  let prettyMap := sample_prettyMap in
  let evs := [Submit (lit "India"); BotTimer random_top] in
  forallb random_ok evs = true /\
  Z.of_nat (length wordlist) < 2 ^ 32 /\
  exists w,
    run wordlist prettyMap initial evs = Normal w /\
    NoDup (used w) /\
    (forall x, In x (used w) -> In x wordlist) /\
    linked (used w) /\
    (forall ev w',
        step wordlist prettyMap w ev = Normal w' ->
        used w' = used w \/
        exists x,
          used w' = used w ++ [x] /\
          (used w <> [] ->
           exists c t, x = c :: t /\ lastLetter w = JStr [c])).
Proof.
  intros wordlist prettyMap evs.
  split; [vm_compute; reflexivity|]. split; [vm_compute; reflexivity|].
  apply (played_words_invariant wordlist prettyMap evs);
    vm_compute; reflexivity.
Defined.

(** C3 on the sample word list, in the state after "India". *)
Lemma botMove_candidates_witness :
  let wordlist := sample_wordlist in
  let prettyMap := sample_prettyMap in
  let w := sample_after [Submit (lit "India")] in
  let c := 97 in
  let r := random_zero in
  lastLetter w = JStr [c] /\
  (forall x,
      In x (candidates wordlist w) <->
      In x wordlist /\ (exists t, x = c :: t) /\ ~ In x (used w)) /\
  (candidates wordlist w = [] ->
   exists w',
     botMove wordlist prettyMap r w = Normal w' /\
     el_result w' = msg_win /\
     used w' = used w /\ lastLetter w' = lastLetter w /\
     spec_next AwaitingBotMove (BotTimer r) w w' = PlayerWon) /\
  (candidates wordlist w <> [] ->
   unit_interval r = true ->
   Z.of_nat (length wordlist) < 2 ^ 32 ->
   exists x w',
     In x (candidates wordlist w) /\
     botMove wordlist prettyMap r w = Normal w' /\
     used w' = used w ++ [x] /\
     lastLetter w' = JStr (slice_last x) /\
     spec_next AwaitingBotMove (BotTimer r) w w' = AwaitingPlayerMove).
Proof.
  intros wordlist prettyMap w c r.
  split; [vm_compute; reflexivity|].
  apply (botMove_candidates wordlist prettyMap w c r).
  vm_compute; reflexivity.
Defined.

(** C4 on the sample word list: "Nepal" submitted after "India". *)
Lemma playWord_failure_kinds_witness :
  let wordlist := sample_wordlist in
  let prettyMap := sample_prettyMap in
  let evs := [Submit (lit "India")] in
  let w := sample_after evs in
  let raw := lit "Nepal" in
  run wordlist prettyMap initial evs = Normal w /\
  let nw := normalizeInput raw in
  let w' := playWord wordlist prettyMap (set_userWord raw w) in
  (el_result w' = msg_invalid <-> nw <> [] /\ ~ In nw wordlist) /\
  (el_result w' = msg_used <-> In nw wordlist /\ In nw (used w)) /\
  (el_result w' = msg_must (lastLetter w) <->
   nw <> [] /\ In nw wordlist /\ ~ In nw (used w) /\
   used w <> [] /\ index0 nw <> lastLetter w) /\
  (used w = [] -> nw <> [] -> In nw wordlist ->
   used w' = [nw] /\ lastLetter w' = JStr (slice_last nw)).
Proof.
  intros wordlist prettyMap evs w raw.
  split; [vm_compute; reflexivity|].
  apply (playWord_failure_kinds wordlist prettyMap evs w raw).
  vm_compute; reflexivity.
Defined.

(** C5 on the sample word list, after "India" and the bot's answer. *)
Lemma required_letter_is_last_character_witness :
  let wordlist := sample_wordlist in
  let prettyMap := sample_prettyMap in
  let evs := [Submit (lit "India"); BotTimer random_zero] in
  let w := sample_after evs in
  run wordlist prettyMap initial evs = Normal w /\
  ((used w = [] /\ lastLetter w = JNull) \/
   (exists front c,
       last (used w) [] = front ++ [c] /\ lastLetter w = JStr [c])) /\
  (forall raw,
      let nw := normalizeInput raw in
      let w' := playWord wordlist prettyMap (set_userWord raw w) in
      (nw <> [] /\ In nw wordlist /\ ~ In nw (used w) /\
       (used w = [] \/ index0 nw = lastLetter w) ->
       el_result w' = msg_played (prettyMap nw) /\
       exists front c,
         nw = front ++ [c] /\
         used w' = used w ++ [nw] /\ lastLetter w' = JStr [c]) /\
      (el_result w' = msg_played (prettyMap nw) ->
       exists front c,
         nw = front ++ [c] /\
         used w' = used w ++ [nw] /\ lastLetter w' = JStr [c])) /\
  (forall r,
      unit_interval r = true ->
      Z.of_nat (length wordlist) < 2 ^ 32 ->
      candidates wordlist w <> [] ->
      exists x front c w',
        array_get (candidates wordlist w)
          (Math_floor (SFmul prec emax r
             (number_of_length (length (candidates wordlist w)))))
        = Some x /\
        x = front ++ [c] /\
        botMove wordlist prettyMap r w = Normal w' /\
        used w' = used w ++ [x] /\ lastLetter w' = JStr [c]) /\
  (forall ev w',
      step wordlist prettyMap w ev = Normal w' ->
      (used w' = used w /\ lastLetter w' = lastLetter w) \/
      (exists front c,
          used w' = used w ++ [front ++ [c]] /\
          lastLetter w' = JStr [c])).
Proof.
  intros wordlist prettyMap evs w.
  split; [vm_compute; reflexivity|].
  apply (required_letter_is_last_character wordlist prettyMap evs w).
  vm_compute; reflexivity.
Defined.

(** C6 on the sample word list, after the bot has found no word. *)
Lemma botMove_outside_turn_witness :
  let wordlist := sample_wordlist in
  let prettyMap := sample_prettyMap in
  let evs := [Submit (lit "India"); Submit (lit "afghanistan");
              Submit (lit "nepal"); Submit (lit "laos");
              BotTimer random_zero] in
  let w := sample_after evs in
  let ph := PlayerWon in
  let r := random_top in
  run_phase wordlist prettyMap initial AwaitingFirstMove evs
  = Normal (w, ph) /\
  (ph = AwaitingFirstMove \/ ph = PlayerWon ->
   exists w',
     botMove wordlist prettyMap r w = Normal w' /\
     used w' = used w /\ lastLetter w' = lastLetter w /\
     timers w' = timers w) /\
  (ph = AwaitingPlayerMove ->
   candidates wordlist w <> [] ->
   unit_interval r = true ->
   Z.of_nat (length wordlist) < 2 ^ 32 ->
   exists x w',
     botMove wordlist prettyMap r w = Normal w' /\
     used w' = used w ++ [x]).
Proof.
  intros wordlist prettyMap evs w ph r.
  split; [vm_compute; reflexivity|].
  apply (botMove_outside_turn wordlist prettyMap evs w ph r).
  vm_compute; reflexivity.
Defined.

(** C9 on the sample word list, with the largest random value. *)
Lemma bot_index_in_bounds_witness :
  let wordlist := sample_wordlist in
  let prettyMap := sample_prettyMap in
  let w := sample_after [Submit (lit "India")] in
  let r := random_top in
  candidates wordlist w <> [] /\
  unit_interval r = true /\
  Z.of_nat (length wordlist) < 2 ^ 32 /\
  exists k x w',
    Math_floor (SFmul prec emax r
                  (number_of_length (length (candidates wordlist w))))
    = Some k /\
    0 <= k < Z.of_nat (length (candidates wordlist w)) /\
    array_get (candidates wordlist w) (Some k) = Some x /\
    In x (candidates wordlist w) /\
    botMove wordlist prettyMap r w = Normal w' /\
    used w' = used w ++ [x].
Proof.
  intros wordlist prettyMap w r.
  assert (Hc : candidates wordlist w <> []) by (vm_compute; discriminate).
  split; [exact Hc|]. split; [vm_compute; reflexivity|].
  split; [vm_compute; reflexivity|].
  apply (bot_index_in_bounds wordlist prettyMap w r Hc);
    vm_compute; reflexivity.
Defined.



(** C4 as the claim words its third part: "fails with LetterMismatch iff
    a previous word exists and the input's first character differs from
    the required letter".  After "India", the input "India" has a previous
    word and starts with [i], not with the required [a]; the script
    answers "Already used". *)
Lemma letter_mismatch_iff_counterexample :
  ~ (forall (wordlist : list jsstring) (prettyMap : jsstring -> jsval)
       (evs : list event) (w : World) (raw : jsstring),
        run wordlist prettyMap initial evs = Normal w ->
        (el_result (playWord wordlist prettyMap (set_userWord raw w))
         = msg_must (lastLetter w) <->
         used w <> [] /\ index0 (normalizeInput raw) <> lastLetter w)).
Proof.
  intros H.
  assert (Hrun : run sample_wordlist sample_prettyMap initial
                   [Submit (lit "India")]
                 = Normal (sample_after [Submit (lit "India")]))
    by (vm_compute; reflexivity).
  specialize (H sample_wordlist sample_prettyMap [Submit (lit "India")]
                (sample_after [Submit (lit "India")]) (lit "India") Hrun).
  destruct H as [_ H].
  assert (N : el_result
                (playWord sample_wordlist sample_prettyMap
                   (set_userWord (lit "India")
                      (sample_after [Submit (lit "India")])))
              <> msg_must (lastLetter (sample_after [Submit (lit "India")])))
    by (vm_compute; discriminate).
  apply N, H. split; vm_compute; discriminate.
Qed.

(** C6 as the claim words it: "[botMove] invoked when the game is not
    awaiting a bot move never mutates the match state".  The player
    submits "India" and, before the first timer has run, "Afghanistan";
    the first timer lets the bot play "Nepal", and the turn is the
    player's.  The second timer then calls [botMove] again, which plays
    "Laos". *)
Lemma botMove_turn_guard_counterexample :
  ~ (forall (wordlist : list jsstring) (prettyMap : jsstring -> jsval)
       (evs : list event) (w : World) (ph : phase) (r : spec_float),
        run_phase wordlist prettyMap initial AwaitingFirstMove evs
        = Normal (w, ph) ->
        ph <> AwaitingBotMove ->
        unit_interval r = true ->
        match botMove wordlist prettyMap r w with
        | Normal w' => used w' = used w /\ lastLetter w' = lastLetter w
        | TypeError => True
        end).
Proof.
  intros H.
  set (evs := [Submit (lit "India"); Submit (lit "Afghanistan");
               BotTimer random_zero]).
  assert (Hrun : run_phase sample_wordlist sample_prettyMap initial
                   AwaitingFirstMove evs
                 = Normal (sample_after evs, AwaitingPlayerMove))
    by (vm_compute; reflexivity).
  assert (Hph : AwaitingPlayerMove <> AwaitingBotMove) by discriminate.
  assert (Hr : unit_interval random_top = true) by (vm_compute; reflexivity).
  specialize (H sample_wordlist sample_prettyMap evs (sample_after evs)
                AwaitingPlayerMove random_top Hrun Hph Hr).
  revert H. vm_compute. intros [H _]. discriminate.
Qed.

(** * Further properties of the script *)

(** ** The [fetch] callback *)

Lemma fetch_callback_snoc (g : Globals) (data : list item) (it : item) :
  fetch_callback g (data ++ [it]) = load_item (fetch_callback g data) it.
Proof. unfold fetch_callback. rewrite fold_left_app. reflexivity. Qed.

Lemma fetch_callback_wordlist (g : Globals) (data : list item) :
  g_wordlist (fetch_callback g data) = g_wordlist g ++ map norm data.
Proof.
  induction data as [|it data IH] using rev_ind.
  - simpl. rewrite app_nil_r. reflexivity.
  - rewrite fetch_callback_snoc. simpl. rewrite IH, map_app, app_assoc.
    reflexivity.
Qed.

(** What [prettyMap[k]] reads after the callback. *)
Lemma fetch_callback_lookup (inherited : jsstring -> jsval)
    (data : list item) (k : jsstring) :
  g_prettyMap (fetch_callback (fresh_globals inherited) data) k =
  if str_eqb k proto_key then inherited k
  else match find (fun it => str_eqb (norm it) k) (rev data) with
       | Some it => JStr (pretty it)
       | None => inherited k
       end.
Proof.
  induction data as [|it data IH] using rev_ind.
  - simpl. destruct (str_eqb k proto_key); reflexivity.
  - rewrite fetch_callback_snoc, rev_app_distr. simpl.
    unfold obj_set.
    destruct (str_eqb (norm it) proto_key) eqn:Ep.
    + rewrite IH. destruct (str_eqb k proto_key) eqn:Ek; [reflexivity|].
      destruct (str_eqb (norm it) k) eqn:En; [|reflexivity].
      apply str_eqb_eq in En. rewrite En in Ep. congruence.
    + destruct (str_eqb k (norm it)) eqn:En.
      * apply str_eqb_eq in En. subst k. rewrite Ep, str_eqb_refl.
        reflexivity.
      * rewrite IH. destruct (str_eqb k proto_key); [reflexivity|].
        destruct (str_eqb (norm it) k) eqn:En'; [|reflexivity].
        apply str_eqb_eq in En'. subst k. rewrite str_eqb_refl in En.
        discriminate.
Qed.

Lemma find_norm_none (data : list item) (k : jsstring) :
  ~ In k (map norm data) ->
  find (fun it => str_eqb (norm it) k) data = None.
Proof.
  intros H. destruct (find _ data) as [it|] eqn:E; [|reflexivity].
  apply find_some in E. destruct E as [Hi E]. apply str_eqb_eq in E.
  exfalso. apply H. rewrite <- E. apply in_map. exact Hi.
Qed.

(** X1.  The [fetch] callback, run on the parsed entries [data] with the
    globals as the script creates them, leaves [wordlist] equal to the
    [norm] fields in file order, duplicates included; [prettyMap[n]]
    then reads the [pretty] field of the last entry whose [norm] is [n];
    for every key that is no [norm] of the file, and for [__proto__],
    [prettyMap] reads what the empty object did. *)
Theorem fetch_callback_loads (inherited : jsstring -> jsval)
    (data : list item) :
  let g := fetch_callback (fresh_globals inherited) data in
  g_wordlist g = load_wordlist data /\
  (forall front it back,
      data = front ++ it :: back ->
      norm it <> proto_key ->
      (forall it', In it' back -> norm it' <> norm it) ->
      g_prettyMap g (norm it) = JStr (pretty it)) /\
  (forall k,
      k = proto_key \/ ~ In k (map norm data) ->
      g_prettyMap g k = inherited k) /\
  (forall k,
      k <> proto_key -> inherited k = JUndefined ->
      g_prettyMap g k = load_prettyMap data k).
Proof.
  intros g. subst g. split; [|split; [|split]].
  - rewrite fetch_callback_wordlist. reflexivity.
  - intros front it back -> Hp Hlast.
    rewrite fetch_callback_lookup.
    destruct (str_eqb (norm it) proto_key) eqn:Ep.
    { apply str_eqb_eq in Ep. contradiction. }
    rewrite rev_app_distr. simpl. rewrite <- app_assoc. simpl.
    assert (Hnone : find (fun it0 => str_eqb (norm it0) (norm it)) (rev back)
                    = None).
    { apply find_norm_none. intros Hin. apply in_map_iff in Hin.
      destruct Hin as (it' & En & Hi). apply in_rev in Hi.
      apply (Hlast it' Hi En). }
    assert (Hfind : forall l1 l2,
               find (fun it0 => str_eqb (norm it0) (norm it)) l1 = None ->
               find (fun it0 => str_eqb (norm it0) (norm it)) (l1 ++ l2)
               = find (fun it0 => str_eqb (norm it0) (norm it)) l2).
    { induction l1 as [|a l1 IH]; intros l2 Hn; [reflexivity|].
      simpl in *. destruct (str_eqb (norm a) (norm it)); [discriminate|].
      apply IH. exact Hn. }
    rewrite (Hfind _ _ Hnone). simpl. rewrite str_eqb_refl. reflexivity.
  - intros k Hk. rewrite fetch_callback_lookup.
    destruct (str_eqb k proto_key) eqn:Ek; [reflexivity|].
    destruct Hk as [-> | Hk].
    { rewrite str_eqb_refl in Ek. discriminate. }
    rewrite find_norm_none; [reflexivity|].
    intros Hin. apply Hk. apply in_map_iff in Hin.
    destruct Hin as (it & En & Hi). apply in_rev in Hi.
    apply in_map_iff. exists it. split; assumption.
  - intros k Hk Hu. rewrite fetch_callback_lookup. unfold load_prettyMap.
    destruct (str_eqb k proto_key) eqn:Ek.
    { apply str_eqb_eq in Ek. contradiction. }
    destruct (find _ (rev data)); [reflexivity | exact Hu].
Qed.

(** ** More on [playWord], [botMove] and [updateUI] *)

Section MoreGameProperties.

Variable wordlist : list jsstring.
Variable prettyMap : jsstring -> jsval.

(** [playWord] in full: a rejection only writes the result line, an
    accepted word also redraws the page and starts a timer. *)
Lemma playWord_page (w : World) :
  let nw := normalizeInput (el_userWord w) in
  let w' := playWord wordlist prettyMap w in
  (exists msg,
      w' = setResult msg w /\
      (forall p, msg <> msg_played p) /\
      (nw = [] \/ ~ In nw wordlist \/ In nw (used w) \/
       (truthy (lastLetter w) = true /\ index0 nw <> lastLetter w))) \/
  (w' = set_timers (S (timers w))
          (setResult (msg_played (prettyMap nw)) (page_after prettyMap nw w)) /\
   nw <> [] /\ In nw wordlist /\ ~ In nw (used w) /\
   (truthy (lastLetter w) = false \/ index0 nw = lastLetter w)).
Proof.
  intros nw w'. subst w'. unfold playWord.
  rewrite normalizeInput_trim. fold nw.
  assert (D : forall l p,
             msg_enter <> msg_played p /\ msg_invalid <> msg_played p /\
             msg_used <> msg_played p /\ msg_must l <> msg_played p).
  { intros l p. pose proof (messages_distinct l p JNull) as M.
    repeat split; intros E; symmetry in E; revert E; tauto. }
  destruct nw as [|c t] eqn:En.
  { left. exists msg_enter. split; [reflexivity|].
    split; [intros p; apply (D JNull p) | left; reflexivity]. }
  cbn [truthy negb].
  destruct (includes wordlist (c :: t)) eqn:Hw; cbn [negb].
  2:{ left. exists msg_invalid. apply includes_not_In in Hw.
      split; [reflexivity|].
      split; [intros p; apply (D JNull p) | right; left; exact Hw]. }
  apply includes_In in Hw.
  destruct (includes (used w) (c :: t)) eqn:Hu.
  { left. exists msg_used. apply includes_In in Hu.
    split; [reflexivity|].
    split; [intros p; apply (D JNull p) | right; right; left; exact Hu]. }
  apply includes_not_In in Hu.
  destruct (truthy (lastLetter w)) eqn:Ht; cbn [andb].
  - destruct (strictEq (index0 (c :: t)) (lastLetter w)) eqn:Hs; cbn [negb].
    + right. apply strictEq_eq in Hs.
      split; [reflexivity|]. repeat split; try assumption;
        try discriminate. right. exact Hs.
    + left. exists (msg_must (lastLetter w)).
      split; [reflexivity|].
      split; [intros p; apply (D (lastLetter w) p)|].
      right; right; right. split; [reflexivity|].
      intros E. apply strictEq_eq in E. congruence.
  - right. split; [reflexivity|]. repeat split; try assumption;
      try discriminate. left. reflexivity.
Qed.

(** [botMove] in full. *)
Lemma botMove_page (r : spec_float) (w w' : World) :
  botMove wordlist prettyMap r w = Normal w' ->
  (candidates wordlist w = [] /\ w' = setResult msg_win w) \/
  (exists x, In x (candidates wordlist w) /\
             w' = setResult (msg_bot (prettyMap x)) (page_after prettyMap x w)).
Proof.
  unfold botMove.
  destruct (candidates wordlist w) as [|a cs] eqn:Ec.
  - simpl. intros E. inversion E. left. split; reflexivity.
  - change (length (a :: cs) =? 0)%nat with false. cbv iota.
    set (idx := Math_floor _).
    destruct (array_get (a :: cs) idx) as [x|] eqn:Eg; [|discriminate].
    intros E. inversion E. right. exists x. split; [|reflexivity].
    unfold array_get in Eg. destruct idx as [k|]; [|discriminate].
    destruct (0 <=? k); [|discriminate].
    apply nth_error_In in Eg. exact Eg.
Qed.

Lemma snoc_neq {A : Type} (l : list A) (x : A) : l ++ [x] <> l.
Proof.
  intros E. apply (f_equal (@length A)) in E.
  rewrite length_app in E. simpl in E. lia.
Qed.

(** X2.  The result line and the input field tell whether a submission
    was accepted: either the word is appended to [used], the line reads
    "You played" with its display name and the input field is emptied, or
    [used] and [lastLetter] are kept, the line reads something else and
    the input field still holds what was typed. *)
Theorem playWord_reports_outcome (w : World) (raw : jsstring) :
  let nw := normalizeInput raw in
  let w' := playWord wordlist prettyMap (set_userWord raw w) in
  (used w' = used w ++ [nw] /\
   el_result w' = msg_played (prettyMap nw) /\
   el_userWord w' = []) \/
  (used w' = used w /\ lastLetter w' = lastLetter w /\
   (forall p, el_result w' <> msg_played p) /\
   el_userWord w' = raw).
Proof.
  intros nw w'. subst nw w'.
  destruct (playWord_page (set_userWord raw w))
    as [(msg & -> & Hm & _) | (-> & _)].
  - right. repeat split. exact Hm.
  - left. repeat split.
Qed.

(** X3.  The result line tells what a bot move did.  Without a
    candidate it reads "You win", and [used], [lastLetter] and the input
    field are kept; otherwise one candidate is appended to [used], the
    line reads "Bot played" with that word's display name, which is never
    the "You win" text, and the input field is emptied. *)
Theorem botMove_reports_outcome (r : spec_float) (w w' : World) :
  botMove wordlist prettyMap r w = Normal w' ->
  (used w' = used w /\ lastLetter w' = lastLetter w /\
   el_result w' = msg_win /\ el_userWord w' = el_userWord w /\
   candidates wordlist w = []) \/
  (exists x,
      used w' = used w ++ [x] /\ used w' <> used w /\
      el_result w' = msg_bot (prettyMap x) /\ el_result w' <> msg_win /\
      el_userWord w' = [] /\ In x (candidates wordlist w)).
Proof.
  intros Hb. apply botMove_page in Hb.
  destruct Hb as [[Ec ->] | (x & Hx & ->)].
  - left. repeat split. exact Ec.
  - right. exists x. simpl. repeat split; try assumption.
    + apply snoc_neq.
    + intros E. pose proof (messages_distinct JNull JNull (prettyMap x)) as M.
      symmetry in E. revert E. tauto.
Qed.

(** After the first word, the player may play exactly the bot's
    candidates. *)
Lemma playWord_legal (w : World) (raw : jsstring) :
  consistent wordlist w -> used w <> [] ->
  let nw := normalizeInput raw in
  let w' := playWord wordlist prettyMap (set_userWord raw w) in
  (In nw (candidates wordlist w) -> used w' = used w ++ [nw]) /\
  (~ In nw (candidates wordlist w) ->
   used w' = used w /\ lastLetter w' = lastLetter w).
Proof.
  intros Hc Hne nw w'. subst nw w'.
  pose proof (proj2 (consistent_truthy_iff wordlist w Hc) Hne) as Ht.
  pose proof (consistent_defined wordlist w Hc) as Hd.
  destruct (playWord_page (set_userWord raw w))
    as [(msg & -> & _ & Hrej) | (-> & Hn & Hw & Hu & Hl)];
    simpl in *.
  - split; [|intros _; split; reflexivity].
    intros Hin. apply (candidates_In wordlist prettyMap) in Hin.
    destruct Hin as (Hw & Hi & Hu).
    exfalso. destruct Hrej as [E | [E | [E | [_ E]]]]; try contradiction.
    rewrite E in Hi. simpl in Hi. congruence.
  - split; [intros _; reflexivity|].
    intros Hnot. exfalso. apply Hnot. apply (candidates_In wordlist prettyMap).
    repeat split; try assumption.
    destruct Hl as [Hl | Hl]; [congruence | exact Hl].
Qed.

(** X4.  After any run in which a word has been played, a submission is
    accepted exactly when its normalized form is one of the candidates
    [botMove] would choose from: player and bot have the same legal
    words. *)
Theorem player_and_bot_share_moves (evs : list event) (w : World)
    (raw : jsstring) :
  run wordlist prettyMap initial evs = Normal w ->
  used w <> [] ->
  let nw := normalizeInput raw in
  let w' := playWord wordlist prettyMap (set_userWord raw w) in
  (In nw (candidates wordlist w) -> used w' = used w ++ [nw]) /\
  (~ In nw (candidates wordlist w) ->
   used w' = used w /\ lastLetter w' = lastLetter w).
Proof.
  intros Hrun Hne.
  apply playWord_legal; [|exact Hne].
  apply (run_consistent wordlist prettyMap evs initial w).
  - apply consistent_initial.
  - exact Hrun.
Qed.

(** X5.  Once the bot has found no word after some word was played, the
    game is over for both sides: whatever is submitted and however often
    [botMove] runs afterwards, the run ends normally with [used] and
    [lastLetter] as they were. *)
Theorem stuck_is_final (evs evs' : list event) (w : World) :
  run wordlist prettyMap initial evs = Normal w ->
  used w <> [] ->
  candidates wordlist w = [] ->
  exists w',
    run wordlist prettyMap w evs' = Normal w' /\
    used w' = used w /\ lastLetter w' = lastLetter w.
Proof.
  intros Hrun Hne Hcs.
  pose proof (run_consistent wordlist prettyMap evs initial w
                (consistent_initial wordlist) Hrun) as Hc.
  clear Hrun evs.
  assert (G : forall v,
             used v = used w -> lastLetter v = lastLetter w ->
             exists w', run wordlist prettyMap v evs' = Normal w' /\
                        used w' = used w /\ lastLetter w' = lastLetter w).
  { induction evs' as [|ev rest IH]; intros v Eu El.
    - exists v. repeat split; assumption.
    - assert (Hcv : consistent wordlist v)
        by (unfold consistent in *; rewrite Eu, El; exact Hc).
      assert (Ecv : candidates wordlist v = [])
        by (rewrite (candidates_ext wordlist v w Eu El); exact Hcs).
      assert (Hnv : used v <> []) by (rewrite Eu; exact Hne).
      destruct ev as [raw | r]; simpl.
      + destruct (playWord_legal v raw Hcv Hnv) as [_ Hkeep].
        destruct Hkeep as [Eu' El'].
        { rewrite Ecv. intros []. }
        apply IH; congruence.
      + rewrite (botMove_stuck wordlist prettyMap r)
          by (rewrite <- Ecv; apply candidates_ext; reflexivity).
        apply IH; simpl; assumption. }
  apply G; reflexivity.
Qed.

(** X6.  Played words are never removed or reordered: the [used] of the
    start of a run is a prefix of the [used] at its end, and at most one
    word per event has been added. *)
Theorem used_only_grows (evs : list event) (w0 w : World) :
  run wordlist prettyMap w0 evs = Normal w ->
  exists added,
    used w = used w0 ++ added /\ (length added <= length evs)%nat.
Proof.
  revert w0. induction evs as [|ev rest IH]; intros w0; simpl.
  - intros E. inversion E. exists []. rewrite app_nil_r.
    split; [reflexivity | simpl; lia].
  - destruct (step wordlist prettyMap w0 ev) as [w1|] eqn:Es;
      [|discriminate].
    intros Hrun. destruct (IH w1 Hrun) as (added & Eu & Hlen).
    assert (H1 : used w1 = used w0 \/ exists x, used w1 = used w0 ++ [x]).
    { destruct ev as [raw | r]; simpl in Es.
      - inversion Es as [E]. clear Es.
        destruct (playWord_page (set_userWord raw w0))
          as [(msg & -> & _) | (-> & _)].
        + left. reflexivity.
        + right. eexists. reflexivity.
      - apply botMove_page in Es.
        destruct Es as [[_ ->] | (x & _ & ->)].
        + left. reflexivity.
        + right. exists x. reflexivity. }
    destruct H1 as [E1 | (x & E1)]; rewrite E1 in Eu.
    + exists added. split; [exact Eu | lia].
    + exists (x :: added). split.
      * rewrite Eu, <- app_assoc. reflexivity.
      * simpl. lia.
Qed.

(** X7.  The game is bounded by the word list: after any run from a
    freshly loaded page, [used] holds at most as many words as the word
    list has entries. *)
Theorem used_bounded_by_wordlist (evs : list event) (w : World) :
  run wordlist prettyMap initial evs = Normal w ->
  (length (used w) <= length wordlist)%nat.
Proof.
  intros Hrun.
  pose proof (run_consistent wordlist prettyMap evs initial w
                (consistent_initial wordlist) Hrun) as (Hnd & Hin & _).
  apply NoDup_incl_length; [exact Hnd|].
  intros x Hx. apply Hin. exact Hx.
Qed.

(** X8.  [playWord] looks at the typed text only through its
    normalization: two inputs with the same normalized form (such as
    "India", " india " and "In-Dia") leave the same game variables, the
    same timers, the same result line and the same display. *)
Theorem playWord_depends_on_normalization (w : World) (raw1 raw2 : jsstring) :
  normalizeInput raw1 = normalizeInput raw2 ->
  let w1 := playWord wordlist prettyMap (set_userWord raw1 w) in
  let w2 := playWord wordlist prettyMap (set_userWord raw2 w) in
  used w1 = used w2 /\ lastLetter w1 = lastLetter w2 /\
  timers w1 = timers w2 /\ el_result w1 = el_result w2 /\
  el_lastLetter w1 = el_lastLetter w2 /\ el_usedWords w1 = el_usedWords w2.
Proof.
  intros E w1 w2. subst w1 w2. unfold playWord.
  rewrite !normalizeInput_trim. cbn [el_userWord set_userWord].
  rewrite E.
  destruct (truthy (JStr (normalizeInput raw2))); cbn [negb];
    [|repeat split].
  destruct (includes wordlist (normalizeInput raw2)); cbn [negb];
    [|repeat split].
  cbn [used lastLetter set_userWord].
  destruct (includes (used w) (normalizeInput raw2)); [repeat split|].
  destruct (truthy (lastLetter w)
            && negb (strictEq (index0 (normalizeInput raw2)) (lastLetter w)));
    repeat split.
Qed.

Lemma page_after_synced (x : jsstring) (w : World) :
  x <> [] -> synced prettyMap (page_after prettyMap x w).
Proof.
  intros Hne. right. destruct (nonempty_snoc x Hne) as (front & c & ->).
  exists c. unfold page_after, updateUI, shown_words.
  cbn [used lastLetter el_lastLetter el_usedWords set_used set_lastLetter].
  rewrite slice_last_snoc. cbn [truthy template].
  split; [reflexivity|]. split; [reflexivity|].
  match goal with
  | |- context [join ?sep ?names] => destruct (join sep names)
  end; reflexivity.
Qed.

Lemma step_synced (w w' : World) (ev : event) :
  consistent wordlist w -> synced prettyMap w ->
  step wordlist prettyMap w ev = Normal w' -> synced prettyMap w'.
Proof.
  intros Hc Hs Hstep. destruct ev as [raw | r]; simpl in Hstep.
  - inversion Hstep as [E]. clear Hstep E.
    destruct (playWord_page (set_userWord raw w))
      as [(msg & -> & _) | (-> & Hne & _)].
    + exact Hs.
    + simpl in Hne.
      destruct (page_after_synced (normalizeInput raw)
                  (set_userWord raw w) Hne) as [H | H];
        [left | right]; exact H.
  - apply botMove_page in Hstep.
    destruct Hstep as [[_ ->] | (x & Hx & ->)].
    + exact Hs.
    + apply (candidates_In wordlist prettyMap) in Hx. simpl in Hx.
      destruct Hx as (_ & Hi & _).
      assert (Hne : x <> []).
      { intros ->. simpl in Hi.
        apply (consistent_defined wordlist w Hc). congruence. }
      destruct (page_after_synced x (set_timers (pred (timers w)) w) Hne)
        as [H | H]; [left | right]; exact H.
Qed.

(** X9.  The display follows the game: after any run from a freshly
    loaded page, either no word has been played and the two display
    elements are untouched, or the letter element shows the one character
    of [lastLetter] (never the placeholder branch "-") and the words
    element shows the display names of [used], joined by ", " in play
    order ("None" only if that text is empty). *)
Theorem display_follows_game (evs : list event) (w : World) :
  run wordlist prettyMap initial evs = Normal w ->
  (used w = [] /\ el_lastLetter w = [] /\ el_usedWords w = []) \/
  (exists c,
      lastLetter w = JStr [c] /\ el_lastLetter w = [c] /\
      el_usedWords w = shown_words prettyMap (used w)).
Proof.
  assert (G : forall v,
             consistent wordlist v -> synced prettyMap v ->
             run wordlist prettyMap v evs = Normal w ->
             synced prettyMap w).
  { induction evs as [|ev rest IH]; intros v Hc Hs; simpl.
    - intros E. inversion E. subst. exact Hs.
    - destruct (step wordlist prettyMap v ev) as [v1|] eqn:Es;
        [|discriminate].
      apply IH.
      + apply (consistent_step wordlist prettyMap v v1 ev Hc Es).
      + apply (step_synced v v1 ev Hc Hs Es). }
  intros Hrun. apply (G initial).
  - apply consistent_initial.
  - left. repeat split.
  - exact Hrun.
Qed.

Lemma step_timers (w w' : World) (ev : event) :
  step wordlist prettyMap w ev = Normal w' ->
  match ev with
  | Submit _ =>
      (played w w' = true /\ timers w' = S (timers w)) \/
      (played w w' = false /\ timers w' = timers w)
  | BotTimer _ =>
      timers w' = pred (timers w) /\
      (length (used w') <= S (length (used w)))%nat
  end.
Proof.
  destruct ev as [raw | r]; simpl; intros Hstep.
  - inversion Hstep as [E]. clear Hstep E.
    destruct (playWord_page (set_userWord raw w))
      as [(msg & -> & _) | (-> & _)].
    + right. split; [apply played_same|]; reflexivity.
    + left. split; [|reflexivity].
      apply (played_snoc _ _ (normalizeInput raw)). reflexivity.
  - apply botMove_page in Hstep.
    destruct Hstep as [[_ ->] | (x & _ & ->)]; simpl.
    + split; [reflexivity | lia].
    + split; [reflexivity|]. rewrite length_app. simpl. lia.
Qed.

Lemma timers_balance_from (evs : list event) (w0 w : World) :
  scheduled wordlist prettyMap w0 evs = true ->
  run wordlist prettyMap w0 evs = Normal w ->
  (timers w + fired evs = timers w0 + accepted wordlist prettyMap w0 evs
   /\ length (used w)
      <= length (used w0) + accepted wordlist prettyMap w0 evs + fired evs)%nat.
Proof.
  revert w0. induction evs as [|ev rest IH]; intros w0; simpl.
  - intros _ E. inversion E. subst. lia.
  - destruct (step wordlist prettyMap w0 ev) as [w1|] eqn:Es;
      [|discriminate].
    intros Hs Hrun. apply andb_true_iff in Hs as [Hev Hs].
    destruct (IH w1 Hs Hrun) as [Ht Hl].
    pose proof (step_timers w0 w1 ev Es) as Hstep.
    destruct ev as [raw | r].
    + destruct Hstep as [[Hp Et] | [Hp Et]]; rewrite Hp.
      * unfold played in Hp. apply negb_true_iff, Nat.eqb_neq in Hp.
        assert (length (used w1) <= S (length (used w0)))%nat.
        { simpl in Es. inversion Es as [E].
          destruct (playWord_page (set_userWord raw w0))
            as [(msg & -> & _) | (-> & _)]; simpl; [lia|].
          rewrite length_app. simpl. lia. }
        simpl. lia.
      * unfold played in Hp. apply negb_false_iff, Nat.eqb_eq in Hp.
        simpl. lia.
    + destruct Hstep as [Et Hu].
      apply negb_true_iff, Nat.eqb_neq in Hev. simpl. lia.
Qed.

(** X10.  Only an accepted submission starts a timer, and it starts
    one.  In a run from a freshly loaded page in which [botMove] runs
    only as the callback of a pending timer, the timers still pending
    plus those that have run equal the accepted submissions; so the bot
    has never moved more often than the player, and [used] holds at most
    one word per accepted submission and one per timer run. *)
Theorem timers_balance (evs : list event) (w : World) :
  scheduled wordlist prettyMap initial evs = true ->
  run wordlist prettyMap initial evs = Normal w ->
  (timers w + fired evs = accepted wordlist prettyMap initial evs
   /\ fired evs <= accepted wordlist prettyMap initial evs
   /\ length (used w)
      <= accepted wordlist prettyMap initial evs + fired evs)%nat.
Proof.
  intros Hs Hrun.
  destruct (timers_balance_from evs initial w Hs Hrun) as [Ht Hl].
  simpl in Ht, Hl. lia.
Qed.

End MoreGameProperties.

(** ** Before the word list has arrived *)

Lemma step_before_loading (prettyMap : jsstring -> jsval) (v : World)
    (ev : event) :
  used v = [] -> lastLetter v = JNull -> timers v = 0%nat ->
  exists v1,
    step [] prettyMap v ev = Normal v1 /\
    used v1 = [] /\ lastLetter v1 = JNull /\ timers v1 = 0%nat /\
    (el_result v1 = msg_enter \/ el_result v1 = msg_invalid \/
     el_result v1 = msg_win).
Proof.
  intros Eu El Et. destruct ev as [raw | r]; simpl.
  - eexists. split; [reflexivity|].
    destruct (playWord_cases [] prettyMap (set_userWord raw v))
      as [[_ ->] | [(_ & _ & ->) | [(_ & [] & _) | [(_ & [] & _) |
          (_ & [] & _)]]]]; simpl; repeat split; auto.
  - rewrite botMove_stuck by reflexivity.
    eexists. split; [reflexivity|]. simpl. rewrite Et.
    repeat split; auto.
Qed.

(** X11.  While [wordlist] is still empty (the [fetch] callback has not
    run), nothing can be played: every run ends normally with [used]
    empty, [lastLetter] [null] and no timer pending, and after at least
    one event the result line asks for a country, says "Invalid country"
    or, after a bot move, "You win". *)
Theorem before_loading (prettyMap : jsstring -> jsval) (evs : list event) :
  exists w,
    run [] prettyMap initial evs = Normal w /\
    used w = [] /\ lastLetter w = JNull /\ timers w = 0%nat /\
    (evs = [] \/ el_result w = msg_enter \/ el_result w = msg_invalid \/
     el_result w = msg_win).
Proof.
  assert (G : forall v,
             used v = [] -> lastLetter v = JNull -> timers v = 0%nat ->
             exists w,
               run [] prettyMap v evs = Normal w /\
               used w = [] /\ lastLetter w = JNull /\ timers w = 0%nat /\
               (evs = [] \/ el_result w = msg_enter \/
                el_result w = msg_invalid \/ el_result w = msg_win)).
  { induction evs as [|ev rest IH]; intros v Eu El Et.
    - exists v. repeat split; try assumption. left. reflexivity.
    - destruct (step_before_loading prettyMap v ev Eu El Et)
        as (v1 & Es & Eu1 & El1 & Et1 & Hr1).
      destruct (IH v1 Eu1 El1 Et1) as (w & Hrun & Hu & Hl & Ht & Hr).
      exists w. simpl. rewrite Es.
      repeat split; try assumption. right.
      destruct Hr as [-> | Hr]; [|exact Hr].
      simpl in Hrun. inversion Hrun. subst. exact Hr1. }
  apply G; reflexivity.
Qed.

(** ** What the normalization ignores *)

Lemma normalizeInput_ascii_other (c : codeunit) :
  0 <= c < 128 -> ~ 65 <= c <= 90 -> ~ 97 <= c <= 122 ->
  normalizeInput [c] = [].
Proof.
  intros Hc Hu Hl.
  unfold normalizeInput, toLowerCase, lowerUnit, flat_map.
  split_cmp; unfold is_a_z; split_cmp; reflexivity.
Qed.

Lemma normalizeInput_capital (c : codeunit) :
  65 <= c <= 90 -> normalizeInput [c] = [c + 32].
Proof.
  intros Hc.
  unfold normalizeInput, toLowerCase, lowerUnit, flat_map.
  split_cmp; unfold is_a_z; split_cmp; reflexivity.
Qed.

Lemma normalizeInput_insert (a b : jsstring) (c : codeunit) :
  normalizeInput (a ++ c :: b)
  = normalizeInput a ++ normalizeInput [c] ++ normalizeInput b.
Proof.
  change (c :: b) with ([c] ++ b).
  rewrite normalizeInput_app, normalizeInput_app. reflexivity.
Qed.

Lemma normalizeInput_small (c : codeunit) :
  97 <= c <= 122 -> normalizeInput [c] = [c].
Proof.
  intros Hc. apply normalizeInput_fixed. constructor; [exact Hc|constructor].
Qed.

Lemma normalizeInput_unit_length (c : codeunit) :
  (length (normalizeInput [c]) <= 1)%nat.
Proof.
  unfold normalizeInput, toLowerCase, lowerUnit, flat_map.
  destruct ((65 <=? c) && (c <=? 90)).
  { simpl. destruct (is_a_z (c + 32)); simpl; lia. }
  destruct (c =? 304); [simpl; lia|].
  destruct (c =? 8490); [simpl; lia|].
  destruct ((192 <=? c) && (c <=? 222) && negb (c =? 215)).
  { simpl. destruct (is_a_z (c + 32)); simpl; lia. }
  simpl. destruct (is_a_z c); simpl; lia.
Qed.

(** X12.  What [normalizeInput] ignores.  It works character by
    character (the normalization of a concatenation is the concatenation
    of the normalizations); an ASCII character that is no letter (space,
    hyphen, digit, punctuation) can be inserted or removed anywhere, and
    an ASCII capital can be replaced by its small letter, without
    changing the result; and the result is never longer than the
    input. *)
Theorem normalizeInput_ignores (a b : jsstring) :
  normalizeInput (a ++ b) = normalizeInput a ++ normalizeInput b /\
  (forall c : codeunit, 0 <= c < 128 -> ~ 65 <= c <= 90 -> ~ 97 <= c <= 122 ->
             normalizeInput (a ++ c :: b) = normalizeInput (a ++ b)) /\
  (forall c : codeunit, 65 <= c <= 90 ->
             normalizeInput (a ++ c :: b)
             = normalizeInput (a ++ (c + 32) :: b)) /\
  (length (normalizeInput a) <= length a)%nat.
Proof.
  split; [apply normalizeInput_app|]. split; [|split].
  - intros c H1 H2 H3.
    rewrite normalizeInput_insert, normalizeInput_ascii_other by assumption.
    rewrite normalizeInput_app. reflexivity.
  - intros c Hc.
    rewrite !normalizeInput_insert.
    rewrite normalizeInput_capital by assumption.
    rewrite normalizeInput_small by lia. reflexivity.
  - induction a as [|c t IH]; [simpl; lia|].
    change (c :: t) with ([c] ++ t).
    rewrite normalizeInput_app, length_app.
    pose proof (normalizeInput_unit_length c). simpl length in *. lia.
Qed.

(** ** The game on a loaded word list *)

Lemma find_norm_some (data : list item) (k : jsstring) :
  In k (map norm data) ->
  exists it, find (fun it => str_eqb (norm it) k) (rev data) = Some it /\
             In it data /\ norm it = k.
Proof.
  intros Hin. apply in_map_iff in Hin. destruct Hin as (it0 & En & Hi).
  destruct (find (fun it => str_eqb (norm it) k) (rev data)) as [it|] eqn:E.
  - exists it. apply find_some in E. destruct E as [Hit Ek].
    apply in_rev in Hit. apply str_eqb_eq in Ek. repeat split; assumption.
  - exfalso. apply in_rev in Hi.
    pose proof (find_none _ _ E it0 Hi) as Hf. simpl in Hf.
    rewrite En, str_eqb_refl in Hf. discriminate.
Qed.

(** X13.  With the globals the [fetch] callback has filled from [data],
    every word on [used] after any run, other than [__proto__], has a
    display name: [prettyMap] reads the [pretty] field of an entry of
    [data] with that [norm], so the texts built from [prettyMap[w]] never
    show "undefined" for it. *)
Theorem played_words_have_names (inherited : jsstring -> jsval)
    (data : list item) (evs : list event) (w : World) :
  let g := fetch_callback (fresh_globals inherited) data in
  run (g_wordlist g) (g_prettyMap g) initial evs = Normal w ->
  forall x,
    In x (used w) -> x <> proto_key ->
    exists it,
      In it data /\ norm it = x /\ g_prettyMap g x = JStr (pretty it).
Proof.
  intros g Hrun x Hx Hp.
  pose proof (run_consistent (g_wordlist g) (g_prettyMap g) evs initial w
                (consistent_initial (g_wordlist g)) Hrun) as (_ & Hin & _).
  destruct (Hin x Hx) as [Hw _].
  subst g. rewrite fetch_callback_wordlist in Hw. simpl in Hw.
  destruct (find_norm_some data x Hw) as (it & Ef & Hi & En).
  exists it. split; [exact Hi|]. split; [exact En|].
  rewrite fetch_callback_lookup, Ef.
  destruct (str_eqb x proto_key) eqn:Ek; [|reflexivity].
  apply str_eqb_eq in Ek. contradiction.
Qed.


(** ** Which words the bot can draw *)

(** A positive integer below 2^53, scaled by a power of two in the
    normal range, is held exactly in a 53-bit mantissa. *)
Lemma binary_round_exact (p : positive) (e : Z) :
  Zpos p < 2 ^ 53 -> -1022 <= e <= 0 ->
  exists mx ex,
    binary_round prec emax false p e = S754_finite false mx ex /\
    valid_binary prec emax (S754_finite false mx ex) = true /\
    e - 52 <= ex <= e /\
    Zpos mx = Zpos p * 2 ^ (e - ex) /\
    Zpos mx < 2 ^ 53.
Proof.
  intros Hp He. unfold binary_round, shl_align.
  pose proof (digits2_pos_bounds p) as [L U].
  set (d := Zpos (digits2_pos p)) in *.
  assert (Hd : 1 <= d <= 53).
  { split; [unfold d; lia|].
    assert (E : 2 ^ (d - 1) < 2 ^ 53) by lia.
    apply Z.pow_lt_mono_r_iff in E; lia. }
  assert (F : fexp prec emax (d + e) = d + e - 53)
    by (unfold fexp, SpecFloat.emin, prec, emax; lia).
  rewrite F.
  destruct (d + e - 53 - e) as [|k|k] eqn:Ek; try lia.
  - assert (E53 : d = 53) by lia.
    exists p, e. split; [|split; [|split; [lia|split]]].
    + apply binary_round_aux_canonical.
      * fold d. rewrite F. lia.
      * unfold emax, prec. lia.
    + cbn [valid_binary]. unfold bounded, canonical_mantissa. fold d. rewrite F.
      apply andb_true_iff. split; [apply Z.eqb_eq; lia|].
      apply Z.leb_le. unfold emax, prec. lia.
    + rewrite Z.sub_diag. simpl. lia.
    + exact Hp.
  - exists (Pos.iter xO p k), (d + e - 53).
    assert (Dk : Zpos (digits2_pos (Pos.iter xO p k)) = 53)
      by (rewrite iter_xO_digits; fold d; lia).
    assert (Fk : fexp prec emax (53 + (d + e - 53)) = d + e - 53)
      by (unfold fexp, SpecFloat.emin, prec, emax; lia).
    split; [|split; [|split; [lia|split]]].
    + apply binary_round_aux_canonical.
      * rewrite Dk. exact Fk.
      * unfold emax, prec. lia.
    + cbn [valid_binary]. unfold bounded, canonical_mantissa. rewrite Dk, Fk.
      apply andb_true_iff. split; [apply Z.eqb_eq; lia|].
      apply Z.leb_le. unfold emax, prec. lia.
    + rewrite iter_xO_value. f_equal. f_equal. lia.
    + pose proof (digits2_pos_bounds (Pos.iter xO p k)) as [_ U'].
      rewrite Dk in U'. exact U'.
Qed.

(** The rounded product is not below an integer the exact product is not
    below. *)
Lemma binary_round_aux_floor_lower (m : positive) (e lo hi j : Z) :
  0 <= lo -> hi + 1 < 2 ^ 53 -> e <= 0 ->
  Zpos m < hi * 2 ^ (- e) ->
  lo * 2 ^ (- e) <= Zpos m ->
  Math_floor (binary_round_aux prec emax false (Zpos m) e loc_Exact) = Some j ->
  lo <= j.
Proof.
  intros Hlo Hhi He Hup Hlow. unfold binary_round_aux.
  destruct (shr_fexp_exact (Zpos m) e ltac:(lia))
    as (mrs & e1 & -> & Ee1 & Em & _).
  set (q := shr_m mrs) in *.
  set (m1 := round_nearest_even q (loc_of_shr_record mrs)).
  assert (He1 : e1 <= 0) by (rewrite Ee1; apply fexp_nonpos with hi; lia).
  assert (K0 : 0 <= e1 - e) by lia.
  pose proof (pow2_pos (e1 - e) K0) as PK.
  pose proof (pow2_pos (- e1) ltac:(lia)) as P1.
  assert (S1 : 2 ^ (- e) = 2 ^ (- e1) * 2 ^ (e1 - e)).
  { rewrite <- pow2_split by lia. f_equal. lia. }
  assert (Hq : lo * 2 ^ (- e1) <= q < hi * 2 ^ (- e1)).
  { rewrite Em. split.
    - apply Z.div_le_lower_bound; [lia|]. rewrite S1 in Hlow. nia.
    - apply Z.div_lt_upper_bound; [lia|]. rewrite S1 in Hup. nia. }
  assert (Hm1 : lo * 2 ^ (- e1) <= m1 < (hi + 1) * 2 ^ (- e1)).
  { destruct (round_nearest_even_cases mrs) as [E | [E _]];
      fold q in E; fold m1 in E; rewrite E; nia. }
  assert (Hm1' : 0 <= m1) by nia.
  destruct (shr_fexp_exact m1 e1 Hm1') as (mrs2 & e2 & -> & Ee2 & Em2 & _).
  assert (He2 : e2 <= 0)
    by (rewrite Ee2; apply fexp_nonpos with (hi + 1); lia).
  assert (K2 : 0 <= e2 - e1) by lia.
  pose proof (pow2_pos (e2 - e1) K2) as PK2.
  pose proof (pow2_pos (- e2) ltac:(lia)) as P2.
  assert (S2 : 2 ^ (- e1) = 2 ^ (- e2) * 2 ^ (e2 - e1)).
  { rewrite <- pow2_split by lia. f_equal. lia. }
  assert (B2 : lo * 2 ^ (- e2) <= shr_m mrs2).
  { rewrite Em2. apply Z.div_le_lower_bound; [lia|].
    destruct Hm1 as [Hm1 _]. rewrite S2 in Hm1. nia. }
  destruct (shr_m mrs2) as [|p|p]; simpl.
  - intros E. inversion E. nia.
  - replace (e2 <=? 971) with true by (symmetry; apply Z.leb_le; lia).
    simpl. intros E. inversion E.
    rewrite Z.shiftl_div_pow2 by lia.
    apply Z.div_le_lower_bound; lia.
  - discriminate.
Qed.

Lemma SFltb_one_small (mx : positive) (ex : Z) :
  ex < -52 -> SFltb (S754_finite false mx ex) (SFone prec emax) = true.
Proof.
  intros H. rewrite SFone_value. unfold SFltb, SFcompare.
  destruct (Z.compare_spec ex (-52)); first [lia | reflexivity].
Qed.

(** Every index of an array shorter than 2^32 is the floored product for
    some value [Math.random()] can return. *)
Lemma random_index_reachable (n : nat) (k : Z) :
  0 < Z.of_nat n < 2 ^ 32 -> 0 <= k < Z.of_nat n ->
  exists r,
    unit_interval r = true /\
    Math_floor (SFmul prec emax r (number_of_length n)) = Some k.
Proof.
  intros Hn Hk.
  assert (H3253 : 2 ^ 32 < 2 ^ 53) by reflexivity.
  destruct (number_of_length_exact n ltac:(lia))
    as (my & ey & -> & Hey & Hmy & _).
  set (N := Z.of_nat n) in *.
  destruct (Z.eq_dec k 0) as [-> | Hk0].
  { exists (S754_zero false). split; reflexivity. }
  set (c := 2 ^ 53) in *.
  assert (Hc : 0 < c) by (unfold c; lia).
  set (q := (k * c + N - 1) / N).
  assert (Hq : k * c <= q * N < k * c + N).
  { pose proof (Z.div_mod (k * c + N - 1) N ltac:(lia)) as DM.
    pose proof (Z.mod_pos_bound (k * c + N - 1) N ltac:(lia)) as MB.
    fold q in DM. nia. }
  assert (Hq0 : 0 < q) by nia.
  assert (Hqc : q < c) by nia.
  destruct q as [|qp|qp] eqn:Eq; try lia.
  destruct (binary_round_exact qp (-53) ltac:(fold c; lia) ltac:(lia))
    as (mx & ex & Er & Hv & Hex & Hmx & Hmxc).
  exists (binary_round prec emax false qp (-53)). rewrite Er.
  split.
  { unfold unit_interval. rewrite Hv. cbn [andb negb].
    apply SFltb_one_small. lia. }
  unfold SFmul. cbn [xorb].
  set (A := - (ex + ey)).
  assert (HA : 53 <= A) by (unfold A; lia).
  assert (ST : 2 ^ A = c * 2 ^ (A - 53)).
  { unfold c. rewrite <- pow2_split by lia. f_equal. lia. }
  assert (SM : 2 ^ (A - 53) = 2 ^ (-53 - ex) * 2 ^ (- ey)).
  { rewrite <- pow2_split by lia. f_equal. unfold A. lia. }
  pose proof (pow2_pos (A - 53) ltac:(lia)) as PT.
  assert (EM : Zpos (mx * my) = Zpos qp * N * 2 ^ (A - 53)).
  { rewrite Pos2Z.inj_mul, Hmx, Hmy, SM. ring. }
  assert (Hup : Zpos (mx * my) < (k + 1) * 2 ^ A).
  { rewrite EM, ST. nia. }
  assert (Hlow : k * 2 ^ A <= Zpos (mx * my)).
  { rewrite EM, ST. nia. }
  destruct (binary_round_aux_floor (mx * my) (ex + ey) (k + 1))
    as (j & Ej & Hj).
  - lia.
  - lia.
  - exact Hup.
  - intros K EK Kpos.
    assert (D : Zdigits2 (Zpos (mx * my)) <= A + 32).
    { apply Zdigits2_upper; try lia.
      rewrite pow2_split by lia.
      pose proof (pow2_pos A ltac:(lia)). nia. }
    assert (HK : K - 1 <= A - 22).
    { rewrite EK. unfold fexp, SpecFloat.emin, prec, emax. unfold A. lia. }
    assert (P1 : 2 ^ (K - 1) <= 2 ^ (A - 22))
      by (apply Z.pow_le_mono_r; lia).
    assert (P2 : 2 ^ (A - 22) = 2 ^ 31 * 2 ^ (A - 53)).
    { rewrite <- pow2_split by lia. f_equal. lia. }
    fold A. rewrite EM, ST.
    assert (C31 : 2 ^ 31 + 2 ^ 32 < c) by (unfold c; reflexivity).
    set (T := 2 ^ (A - 53)) in *. set (P := 2 ^ (K - 1)) in *.
    set (c31 := 2 ^ 31) in *. set (c32 := 2 ^ 32) in *.
    nia.
  - rewrite Ej. f_equal.
    assert (k <= j); [|lia].
    apply (binary_round_aux_floor_lower (mx * my) (ex + ey) k (k + 1) j);
      try lia.
    + exact Hup.
    + exact Hlow.
    + exact Ej.
Qed.

(** X14.  The random choice starves no word: for every candidate of
    [botMove] there is a value [Math.random()] can return with which
    [botMove] plays exactly that word. *)
Theorem every_candidate_can_be_drawn (wordlist : list jsstring)
    (prettyMap : jsstring -> jsval) (w : World) (x : jsstring) :
  Z.of_nat (length wordlist) < 2 ^ 32 ->
  In x (candidates wordlist w) ->
  exists r w',
    unit_interval r = true /\
    botMove wordlist prettyMap r w = Normal w' /\
    used w' = used w ++ [x] /\
    lastLetter w' = JStr (slice_last x).
Proof.
  intros Hlen Hx.
  pose proof (filter_length_le
    (fun y => strictEq (index0 y) (lastLetter w)
              && negb (includes (used w) y)) wordlist) as Hle.
  fold (candidates wordlist w) in Hle.
  destruct (In_nth_error _ _ Hx) as (k & Ek).
  assert (Hk : (k < length (candidates wordlist w))%nat)
    by (apply nth_error_Some; congruence).
  destruct (random_index_reachable (length (candidates wordlist w))
              (Z.of_nat k)) as (r & Hr & Ef); [lia | lia |].
  exists r. unfold botMove. rewrite Ef.
  replace (length (candidates wordlist w) =? 0)%nat with false
    by (symmetry; apply Nat.eqb_neq; lia).
  unfold array_get.
  replace (0 <=? Z.of_nat k) with true by (symmetry; apply Z.leb_le; lia).
  rewrite Nat2Z.id, Ek.
  eexists. repeat split. exact Hr.
Qed.

(** ** Typing a display name *)

(** X15.  On a word list loaded from entries whose [norm] is the
    normalization of their [pretty] name (as the pre-mapped file
    intends), typing the display name of an entry plays it: after any
    run, if the entry's [norm] is non-empty, not on [used], and starts
    with the required letter (or nothing has been played), the
    submission is accepted, [norm] is appended to [used] and the result
    line reads "You played" with the display name of an entry of that
    [norm]. *)
Theorem typing_display_name_plays (inherited : jsstring -> jsval)
    (data : list item) (evs : list event) (w : World) (it : item) :
  let g := fetch_callback (fresh_globals inherited) data in
  run (g_wordlist g) (g_prettyMap g) initial evs = Normal w ->
  In it data ->
  normalizeInput (pretty it) = norm it ->
  norm it <> [] ->
  ~ In (norm it) (used w) ->
  used w = [] \/ index0 (norm it) = lastLetter w ->
  let w' := playWord (g_wordlist g) (g_prettyMap g)
              (set_userWord (pretty it) w) in
  used w' = used w ++ [norm it] /\
  lastLetter w' = JStr (slice_last (norm it)) /\
  exists it',
    In it' data /\ norm it' = norm it /\
    el_result w' = msg_played (JStr (pretty it')).
Proof.
  intros g Hrun Hit Hnorm Hne Hu Hl w'. subst w'.
  pose proof (run_consistent (g_wordlist g) (g_prettyMap g) evs initial w
                (consistent_initial (g_wordlist g)) Hrun) as Hc.
  assert (Hw : In (norm it) (g_wordlist g)).
  { subst g. rewrite fetch_callback_wordlist. simpl.
    apply in_map. exact Hit. }
  assert (Hp : norm it <> proto_key).
  { intros E. pose proof (normalizeInput_a_z (pretty it)) as Ha.
    rewrite Hnorm, E in Ha. inversion Ha as [|c t Hc0 _]. subst.
    simpl in Hc0. lia. }
  destruct (playWord_cases (g_wordlist g) (g_prettyMap g)
              (set_userWord (pretty it) w)) as
      [[E _] | [(_ & Hn & _) | [(_ & _ & Hin & _) |
       [(_ & _ & _ & Ht & Hi & _) | (_ & _ & _ & _ & Eu & El & _ & Er)]]]];
    simpl in *; rewrite ?Hnorm in *.
  - contradiction.
  - contradiction.
  - contradiction.
  - exfalso. destruct Hl as [Hl | Hl]; [|contradiction].
    apply (consistent_truthy_iff (g_wordlist g) w Hc) in Ht.
    contradiction.
  - split; [exact Eu|]. split; [exact El|].
    assert (Hmap : In (norm it) (map norm data))
      by (apply in_map; exact Hit).
    destruct (find_norm_some data (norm it) Hmap) as (it' & Ef & Hi' & En').
    exists it'. split; [exact Hi'|]. split; [exact En'|].
    rewrite Er. f_equal. subst g.
    rewrite fetch_callback_lookup, Ef.
    destruct (str_eqb (norm it) proto_key) eqn:Ek; [|reflexivity].
    apply str_eqb_eq in Ek. contradiction.
Qed.

(** * The further properties on the sample word list *)

(** X3 on the sample word list: the bot's answer to "India". *)
Lemma botMove_reports_outcome_witness :
  let wordlist := sample_wordlist in
  let prettyMap := sample_prettyMap in
  let r := random_top in
  let w := sample_after [Submit (lit "India")] in
  let w' := sample_after [Submit (lit "India"); BotTimer random_top] in
  botMove wordlist prettyMap r (set_timers 0 w) = Normal w' /\
  ((used w' = used w /\ lastLetter w' = lastLetter w /\
    el_result w' = msg_win /\ el_userWord w' = el_userWord w /\
    candidates wordlist w = []) \/
   (exists x,
       used w' = used w ++ [x] /\ used w' <> used w /\
       el_result w' = msg_bot (prettyMap x) /\ el_result w' <> msg_win /\
       el_userWord w' = [] /\ In x (candidates wordlist w))).
Proof.
  intros wordlist prettyMap r w w'.
  assert (Hb : botMove wordlist prettyMap r (set_timers 0 w) = Normal w')
    by (vm_compute; reflexivity).
  split; [exact Hb|].
  apply (botMove_reports_outcome wordlist prettyMap r (set_timers 0 w) w' Hb).
Defined.

(** X4 on the sample word list: "Afghanistan" after "India". *)
Lemma player_and_bot_share_moves_witness :
  let wordlist := sample_wordlist in
  let prettyMap := sample_prettyMap in
  let evs := [Submit (lit "India")] in
  let w := sample_after evs in
  let raw := lit "Afghanistan" in
  run wordlist prettyMap initial evs = Normal w /\
  used w <> [] /\
  let nw := normalizeInput raw in
  let w' := playWord wordlist prettyMap (set_userWord raw w) in
  (In nw (candidates wordlist w) -> used w' = used w ++ [nw]) /\
  (~ In nw (candidates wordlist w) ->
   used w' = used w /\ lastLetter w' = lastLetter w).
Proof.
  intros wordlist prettyMap evs w raw.
  assert (Hrun : run wordlist prettyMap initial evs = Normal w)
    by (vm_compute; reflexivity).
  assert (Hne : used w <> []) by (vm_compute; discriminate).
  split; [exact Hrun|]. split; [exact Hne|].
  apply (player_and_bot_share_moves wordlist prettyMap evs w raw Hrun Hne).
Defined.

(** X5 on the sample word list: after the four words the bot is stuck. *)
Lemma stuck_is_final_witness :
  let wordlist := sample_wordlist in
  let prettyMap := sample_prettyMap in
  let evs := [Submit (lit "India"); Submit (lit "afghanistan");
              Submit (lit "nepal"); Submit (lit "laos")] in
  let evs' := [BotTimer random_top; Submit (lit "India")] in
  let w := sample_after evs in
  run wordlist prettyMap initial evs = Normal w /\
  used w <> [] /\
  candidates wordlist w = [] /\
  exists w',
    run wordlist prettyMap w evs' = Normal w' /\
    used w' = used w /\ lastLetter w' = lastLetter w.
Proof.
  intros wordlist prettyMap evs evs' w.
  assert (Hrun : run wordlist prettyMap initial evs = Normal w)
    by (vm_compute; reflexivity).
  assert (Hne : used w <> []) by (vm_compute; discriminate).
  assert (Hcs : candidates wordlist w = []) by (vm_compute; reflexivity).
  split; [exact Hrun|]. split; [exact Hne|]. split; [exact Hcs|].
  apply (stuck_is_final wordlist prettyMap evs evs' w Hrun Hne Hcs).
Defined.

(** X6 on the sample word list. *)
Lemma used_only_grows_witness :
  let wordlist := sample_wordlist in
  let prettyMap := sample_prettyMap in
  let w0 := sample_after [Submit (lit "India")] in
  let evs := [BotTimer random_top; Submit (lit "Nepal")] in
  let w := sample_after [Submit (lit "India"); BotTimer random_top;
                         Submit (lit "Nepal")] in
  run wordlist prettyMap w0 evs = Normal w /\
  exists added,
    used w = used w0 ++ added /\ (length added <= length evs)%nat.
Proof.
  intros wordlist prettyMap w0 evs w.
  assert (Hrun : run wordlist prettyMap w0 evs = Normal w)
    by (vm_compute; reflexivity).
  split; [exact Hrun|].
  apply (used_only_grows wordlist prettyMap evs w0 w Hrun).
Defined.

(** X7 on the sample word list. *)
Lemma used_bounded_by_wordlist_witness :
  let wordlist := sample_wordlist in
  let prettyMap := sample_prettyMap in
  let evs := [Submit (lit "India"); BotTimer random_top] in
  let w := sample_after evs in
  run wordlist prettyMap initial evs = Normal w /\
  (length (used w) <= length wordlist)%nat.
Proof.
  intros wordlist prettyMap evs w.
  assert (Hrun : run wordlist prettyMap initial evs = Normal w)
    by (vm_compute; reflexivity).
  split; [exact Hrun|].
  apply (used_bounded_by_wordlist wordlist prettyMap evs w Hrun).
Defined.

(** X8 on the sample word list: "India" and " in-dia ". *)
Lemma playWord_depends_on_normalization_witness :
  let wordlist := sample_wordlist in
  let prettyMap := sample_prettyMap in
  let w := initial in
  let raw1 := lit "India" in
  let raw2 := lit " in-dia " in
  normalizeInput raw1 = normalizeInput raw2 /\
  let w1 := playWord wordlist prettyMap (set_userWord raw1 w) in
  let w2 := playWord wordlist prettyMap (set_userWord raw2 w) in
  used w1 = used w2 /\ lastLetter w1 = lastLetter w2 /\
  timers w1 = timers w2 /\ el_result w1 = el_result w2 /\
  el_lastLetter w1 = el_lastLetter w2 /\ el_usedWords w1 = el_usedWords w2.
Proof.
  intros wordlist prettyMap w raw1 raw2.
  assert (E : normalizeInput raw1 = normalizeInput raw2)
    by (vm_compute; reflexivity).
  split; [exact E|].
  apply (playWord_depends_on_normalization wordlist prettyMap w raw1 raw2 E).
Defined.

(** X9 on the sample word list. *)
Lemma display_follows_game_witness :
  let wordlist := sample_wordlist in
  let prettyMap := sample_prettyMap in
  let evs := [Submit (lit "India"); BotTimer random_top] in
  let w := sample_after evs in
  run wordlist prettyMap initial evs = Normal w /\
  ((used w = [] /\ el_lastLetter w = [] /\ el_usedWords w = []) \/
   (exists c,
       lastLetter w = JStr [c] /\ el_lastLetter w = [c] /\
       el_usedWords w = shown_words prettyMap (used w))).
Proof.
  intros wordlist prettyMap evs w.
  assert (Hrun : run wordlist prettyMap initial evs = Normal w)
    by (vm_compute; reflexivity).
  split; [exact Hrun|].
  apply (display_follows_game wordlist prettyMap evs w Hrun).
Defined.

(** X10 on the sample word list: two submissions, then one timer. *)
Lemma timers_balance_witness :
  let wordlist := sample_wordlist in
  let prettyMap := sample_prettyMap in
  let evs := [Submit (lit "India"); Submit (lit "Afghanistan");
              BotTimer random_top] in
  let w := sample_after evs in
  scheduled wordlist prettyMap initial evs = true /\
  run wordlist prettyMap initial evs = Normal w /\
  (timers w + fired evs = accepted wordlist prettyMap initial evs
   /\ fired evs <= accepted wordlist prettyMap initial evs
   /\ length (used w)
      <= accepted wordlist prettyMap initial evs + fired evs)%nat.
Proof.
  intros wordlist prettyMap evs w.
  assert (Hs : scheduled wordlist prettyMap initial evs = true)
    by (vm_compute; reflexivity).
  assert (Hrun : run wordlist prettyMap initial evs = Normal w)
    by (vm_compute; reflexivity).
  split; [exact Hs|]. split; [exact Hrun|].
  apply (timers_balance wordlist prettyMap evs w Hs Hrun).
Defined.

(** X13 on the sample entries. *)
Lemma played_words_have_names_witness :
  let inherited := fun _ : jsstring => JUndefined in
  let data := sample_data in
  let evs := [Submit (lit "India"); BotTimer random_top] in
  let w := sample_loaded_after evs in
  let g := fetch_callback (fresh_globals inherited) data in
  run (g_wordlist g) (g_prettyMap g) initial evs = Normal w /\
  forall x,
    In x (used w) -> x <> proto_key ->
    exists it,
      In it data /\ norm it = x /\ g_prettyMap g x = JStr (pretty it).
Proof.
  intros inherited data evs w g.
  assert (Hrun : run (g_wordlist g) (g_prettyMap g) initial evs = Normal w)
    by (vm_compute; reflexivity).
  split; [exact Hrun|].
  apply (played_words_have_names inherited data evs w Hrun).
Defined.

(** X14 on the sample word list: "Afghanistan" after "India". *)
Lemma every_candidate_can_be_drawn_witness :
  let wordlist := sample_wordlist in
  let prettyMap := sample_prettyMap in
  let w := sample_after [Submit (lit "India")] in
  let x := lit "afghanistan" in
  Z.of_nat (length wordlist) < 2 ^ 32 /\
  In x (candidates wordlist w) /\
  exists r w',
    unit_interval r = true /\
    botMove wordlist prettyMap r w = Normal w' /\
    used w' = used w ++ [x] /\
    lastLetter w' = JStr (slice_last x).
Proof.
  intros wordlist prettyMap w x.
  assert (Hlen : Z.of_nat (length wordlist) < 2 ^ 32)
    by (vm_compute; reflexivity).
  assert (Hx : In x (candidates wordlist w))
    by (vm_compute; left; reflexivity).
  split; [exact Hlen|]. split; [exact Hx|].
  apply (every_candidate_can_be_drawn wordlist prettyMap w x Hlen Hx).
Defined.

(** X15 on the sample entries: typing "Nepal" after "India" and
    "Afghanistan". *)
Lemma typing_display_name_plays_witness :
  let inherited := fun _ : jsstring => JUndefined in
  let data := sample_data in
  let evs := [Submit (lit "India"); BotTimer random_top] in
  let w := sample_loaded_after evs in
  let it := mkItem (lit "Nepal") (lit "nepal") in
  let g := fetch_callback (fresh_globals inherited) data in
  run (g_wordlist g) (g_prettyMap g) initial evs = Normal w /\
  In it data /\
  normalizeInput (pretty it) = norm it /\
  norm it <> [] /\
  ~ In (norm it) (used w) /\
  (used w = [] \/ index0 (norm it) = lastLetter w) /\
  let w' := playWord (g_wordlist g) (g_prettyMap g)
              (set_userWord (pretty it) w) in
  used w' = used w ++ [norm it] /\
  lastLetter w' = JStr (slice_last (norm it)) /\
  exists it',
    In it' data /\ norm it' = norm it /\
    el_result w' = msg_played (JStr (pretty it')).
Proof.
  intros inherited data evs w it g.
  assert (Hrun : run (g_wordlist g) (g_prettyMap g) initial evs = Normal w)
    by (vm_compute; reflexivity).
  assert (Hit : In it data) by (right; right; left; reflexivity).
  assert (Hnorm : normalizeInput (pretty it) = norm it)
    by (vm_compute; reflexivity).
  assert (Hne : norm it <> []) by (vm_compute; discriminate).
  assert (Hu : ~ In (norm it) (used w))
    by (apply includes_not_In; vm_compute; reflexivity).
  assert (Hl : used w = [] \/ index0 (norm it) = lastLetter w)
    by (right; vm_compute; reflexivity).
  split; [exact Hrun|]. split; [exact Hit|]. split; [exact Hnorm|].
  split; [exact Hne|]. split; [exact Hu|]. split; [exact Hl|].
  apply (typing_display_name_plays inherited data evs w it
           Hrun Hit Hnorm Hne Hu Hl).
Defined.
